(** * PrismaChat core: TTL+LRU cache, token-bucket rate limiter, inference queue

    A shallow embedding of [app/core/cache.py], [app/core/rate_limiter.py]
    and [app/core/queue.py], with the properties of the three components.

    Conventions of the embedding.
    - Python [int] is [Z]; wall-clock readings ([time.time()]) and token
      counts are exact rationals [Q] (rounding of binary floats is not
      modelled).
    - Every [time.time()] call of the source is an explicit argument of the
      embedded function.
    - A Python call either returns or raises: [outcome] carries the state the
      object is left in together with the value returned or the exception
      raised.
    - An [OrderedDict] is an association list, oldest entry first. *)

From Stdlib Require Import ZArith QArith Qminmax Qround List Lia Lqa.
From stdpp Require Import gmap strings list sorting.

Set Default Proof Using "Type".
Local Open Scope Z_scope.

(** * Part I: the embedding *)

(** ** Python-level notions shared by the three components *)

Module Py.

(** The exceptions that occur in the embedded code.  [CancelledError]
    derives from [BaseException] only; all the others are [Exception]s. *)
Inductive exn : Type :=
| KeyError
| ZeroDivisionError
| QueueFull
| InvalidStateError
| ValueError
| CancelledError
| WorkError (msg : string).

(** [isinstance(e, Exception)], what [except Exception] catches. *)
Definition is_Exception (e : exn) : bool :=
  match e with
  | CancelledError => false
  | _ => true
  end.

(** Result of a call on an object whose state has type [S]: the state the
    object is left in, with the value returned or the exception raised. *)
Inductive outcome (S A : Type) : Type :=
| Returned (s : S) (a : A)
| Raised (s : S) (e : exn).
Arguments Returned {S A} s a.
Arguments Raised {S A} s e.

(** [x > y] on rationals, as a boolean. *)
Definition Qgtb (x y : Q) : bool := negb (Qle_bool x y).

End Py.
Import Py.

(** ** [app/core/cache.py]: class [TTLCache] *)

Module TTLCache.
Section Defs.

(** The type of cached values ([Any] in the source). *)
Context {Any : Type}.

(** [{"value": value, "timestamp": time.time()}] *)
Record entry : Type := mk_entry { value : Any; timestamp : Q }.

(** [OrderedDict[str, dict]]; the head of the list is the first position,
    the one [popitem(last=False)] removes. *)
Definition odict : Type := list (string * entry).

Record t : Type := mk {
  _cache : odict;
  _max_size : Z;
  _ttl_seconds : Z;
  _hits : Z;
  _misses : Z
}.

(** [TTLCache(max_size, ttl_seconds)] *)
Definition init (max_size ttl_seconds : Z) : t :=
  mk [] max_size ttl_seconds 0 0.

Definition keys (d : odict) : list string := map fst d.

(** [d[key]], with [None] for [key not in d]. *)
Fixpoint od_lookup (key : string) (d : odict) : option entry :=
  match d with
  | [] => None
  | (k, e) :: d' => if String.eqb k key then Some e else od_lookup key d'
  end.

(** [del d[key]]; the source only deletes keys that are present. *)
Fixpoint od_delete (key : string) (d : odict) : odict :=
  match d with
  | [] => []
  | (k, e) :: d' => if String.eqb k key then d' else (k, e) :: od_delete key d'
  end.

(** [d.move_to_end(key)]; the source only moves keys that are present. *)
Definition od_move_to_end (key : string) (d : odict) : odict :=
  match od_lookup key d with
  | Some e => od_delete key d ++ [(key, e)]
  | None => d
  end.

(** [d[key] = e]: an existing key keeps its position, a new key goes last. *)
Fixpoint od_setitem (key : string) (e : entry) (d : odict) : odict :=
  match d with
  | [] => [(key, e)]
  | (k, e0) :: d' =>
      if String.eqb k key then (k, e) :: d' else (k, e0) :: od_setitem key e d'
  end.

(** [now - entry["timestamp"] > self._ttl_seconds] *)
Definition expired (ttl_seconds : Z) (now : Q) (e : entry) : bool :=
  Qgtb (now - timestamp e) (inject_Z ttl_seconds).

(** [TTLCache.get]; the clock is read only when the key is present. *)
Definition get (c : t) (key : string) (now : Q) : t * option Any :=
  match od_lookup key (_cache c) with
  | None =>
      (mk (_cache c) (_max_size c) (_ttl_seconds c) (_hits c) (_misses c + 1),
       None)
  | Some e =>
      if expired (_ttl_seconds c) now e then
        (mk (od_delete key (_cache c)) (_max_size c) (_ttl_seconds c)
            (_hits c) (_misses c + 1),
         None)
      else
        (mk (od_move_to_end key (_cache c)) (_max_size c) (_ttl_seconds c)
            (_hits c + 1) (_misses c),
         Some (value e))
  end.

(** [while len(d) >= max_size: d.popitem(last=False)].
    [popitem] on an empty dictionary raises [KeyError]: the result [None]. *)
Fixpoint evict (max_size : Z) (d : odict) : option odict :=
  match d with
  | [] => if 0 >=? max_size then None else Some []
  | _ :: d' =>
      if Z.of_nat (length d) >=? max_size then evict max_size d' else Some d
  end.

(** [TTLCache.set].  When [popitem] raises, everything has been popped. *)
Definition set (c : t) (key : string) (v : Any) (now : Q) : outcome t unit :=
  match evict (_max_size c) (_cache c) with
  | None =>
      Raised (mk [] (_max_size c) (_ttl_seconds c) (_hits c) (_misses c)) KeyError
  | Some d =>
      Returned (mk (od_setitem key (mk_entry v now) d) (_max_size c)
                   (_ttl_seconds c) (_hits c) (_misses c))
               tt
  end.

(** [TTLCache.invalidate] *)
Definition invalidate (c : t) (key : string) : t * bool :=
  match od_lookup key (_cache c) with
  | Some _ =>
      (mk (od_delete key (_cache c)) (_max_size c) (_ttl_seconds c)
          (_hits c) (_misses c),
       true)
  | None => (c, false)
  end.

(** [TTLCache.clear] *)
Definition clear (c : t) : t :=
  mk [] (_max_size c) (_ttl_seconds c) (_hits c) (_misses c).

(** [TTLCache.cleanup_expired] *)
Definition cleanup_expired (c : t) (now : Q) : t * Z :=
  let expired_keys :=
    keys (List.filter (fun kv => expired (_ttl_seconds c) now (snd kv)) (_cache c)) in
  (mk (fold_left (fun d k => od_delete k d) expired_keys (_cache c))
      (_max_size c) (_ttl_seconds c) (_hits c) (_misses c),
   Z.of_nat (length expired_keys)).

(** *** Sequences of calls *)

Inductive op : Type :=
| OpGet (key : string) (now : Q)
| OpSet (key : string) (v : Any) (now : Q)
| OpInvalidate (key : string)
| OpClear
| OpCleanupExpired (now : Q).

Definition step (c : t) (o : op) : outcome t unit :=
  match o with
  | OpGet key now => Returned (fst (get c key now)) tt
  | OpSet key v now => set c key v now
  | OpInvalidate key => Returned (fst (invalidate c key)) tt
  | OpClear => Returned (clear c) tt
  | OpCleanupExpired now => Returned (fst (cleanup_expired c now)) tt
  end.

(** The calls in order; the first exception ends the run. *)
Fixpoint run (c : t) (ops : list op) : outcome t unit :=
  match ops with
  | [] => Returned c tt
  | o :: ops' =>
      match step c o with
      | Returned c' _ => run c' ops'
      | Raised c' e => Raised c' e
      end
  end.

(** *** Access order, as the specification words it

    The specification speaks of the least-recently-used entry "by access
    order, including inserts", where "a [get] that hits refreshes recency".
    The access log below records that notion next to a run, without
    looking at the positions in the dictionary: every call has a number
    (its index in the run), and a key's stamp is the number of the last
    call that inserted it by [set] or hit it by [get]. *)











End Defs.
Arguments entry : clear implicits.
Arguments odict : clear implicits.
Arguments t : clear implicits.
Arguments op : clear implicits.
End TTLCache.

(** ** [app/core/rate_limiter.py]: class [RateLimiter] *)

Module RateLimiter.
Section Defs.

(** The limiter uses a request only through [_get_client_key], the
    extraction of the client identifier from the HTTP headers; it is a
    parameter of the embedding. *)
Context {Request : Type}.
Variable _get_client_key : Request -> string.

(** [{"tokens": ..., "last_refill": ...}] *)
Record bucket : Type := mk_bucket { tokens : Q; last_refill : Q }.

Record t : Type := mk {
  _max_tokens : Z;
  _refill_rate : Q;
  _window_seconds : Z;
  _buckets : gmap string bucket
}.

(** [RateLimiter(max_tokens, refill_rate, window_seconds)] *)
Definition init (max_tokens : Z) (refill_rate : Q) (window_seconds : Z) : t :=
  mk max_tokens refill_rate window_seconds ∅.

(** [bucket[...] = ...] on the dictionary stored under [key]: buckets are
    mutated in place, so the map sees the new contents. *)
Definition store (rl : t) (key : string) (b : bucket) : t :=
  mk (_max_tokens rl) (_refill_rate rl) (_window_seconds rl)
     (<[key:=b]> (_buckets rl)).

(** [self._buckets[client_key]] on the [defaultdict]: a missing key gets
    [{"tokens": max_tokens, "last_refill": time.time()}]; [created] is that
    clock reading, taken only when the key is missing. *)
Definition bucket_of (rl : t) (key : string) (created : Q) : t * bucket :=
  match _buckets rl !! key with
  | Some b => (rl, b)
  | None =>
      let b := mk_bucket (inject_Z (_max_tokens rl)) created in
      (store rl key b, b)
  end.

(** [RateLimiter._refill] *)
Definition _refill (rl : t) (b : bucket) (now : Q) : bucket :=
  let elapsed := (now - last_refill b)%Q in
  let new_tokens := (elapsed * _refill_rate rl)%Q in
  mk_bucket (Qmin (inject_Z (_max_tokens rl)) (tokens b + new_tokens)) now.

(** [RateLimiter.check]; the body of [with self._lock] is one transition. *)
Definition check (rl : t) (request : Request) (cost : Z) (created now : Q)
  : t * bool :=
  let client_key := _get_client_key request in
  let '(rl1, b) := bucket_of rl client_key created in
  let b1 := _refill rl1 b now in
  if Qle_bool (inject_Z cost) (tokens b1) then
    (store rl1 client_key
           (mk_bucket (tokens b1 - inject_Z cost) (last_refill b1)),
     true)
  else (store rl1 client_key b1, false).

(** [RateLimiter.get_retry_after]; a division by zero raises
    [ZeroDivisionError], for [int] and [float] operands alike. *)
Definition get_retry_after (rl : t) (request : Request) (cost : Z) (created : Q)
  : outcome t Q :=
  let client_key := _get_client_key request in
  let '(rl1, b) := bucket_of rl client_key created in
  let needed := (inject_Z cost - tokens b)%Q in
  if Qle_bool needed 0 then Returned rl1 0%Q
  else if Qeq_bool (_refill_rate rl1) 0 then Raised rl1 ZeroDivisionError
  else Returned rl1 (needed / _refill_rate rl1)%Q.

(** [int(x)]: truncation towards zero. *)
Definition py_int (x : Q) : Z :=
  if Qle_bool 0 x then Qfloor x else Qceiling x.

(** [RateLimiter.get_remaining] *)
Definition get_remaining (rl : t) (request : Request) (created now : Q)
  : t * Z :=
  let client_key := _get_client_key request in
  let '(rl1, b) := bucket_of rl client_key created in
  let b1 := _refill rl1 b now in
  (store rl1 client_key b1, py_int (tokens b1)).

(** *** [with self._lock]: threads calling [check]

    The same lines of [check], one thread step at a time: a thread
    acquires [self._lock], looks its bucket up and refills it, compares and
    debits, leaves the block (releasing the lock) and returns.  Any number
    of threads are interleaved by a schedule; a thread that wants the lock
    while it is held does not move. *)

(** The arguments of one call, with the clock readings it will make. *)
Record call : Type := mk_call {
  call_request : Request;
  call_cost : Z;
  call_created : Q;
  call_now : Q
}.

(** Where a thread stands in [check]. *)
Inductive pc : Type :=
| AtAcquire
| AtRefill
| AtDebit
| AtRelease (allowed : bool)
| AtReturn (allowed : bool).

Record shared : Type := mk_shared { limiter : t; locked : bool }.

(** [bucket = self._buckets[client_key]; self._refill(bucket)] *)
Definition refill_step (rl : t) (a : call) : t :=
  let client_key := _get_client_key (call_request a) in
  let '(rl1, b) := bucket_of rl client_key (call_created a) in
  store rl1 client_key (_refill rl1 b (call_now a)).

(** [if bucket["tokens"] >= cost: bucket["tokens"] -= cost], on the bucket
    the refill left in the map. *)
Definition debit_step (rl : t) (a : call) : option (t * bool) :=
  let client_key := _get_client_key (call_request a) in
  match _buckets rl !! client_key with
  | Some b1 =>
      if Qle_bool (inject_Z (call_cost a)) (tokens b1) then
        Some (store rl client_key
                    (mk_bucket (tokens b1 - inject_Z (call_cost a)) (last_refill b1)),
              true)
      else Some (rl, false)
  | None => None
  end.

(** One step of a thread; [None] when it cannot move. *)
Definition thread_step (sh : shared) (a : call) (p : pc) : option (shared * pc) :=
  match p with
  | AtAcquire =>
      if locked sh then None else Some (mk_shared (limiter sh) true, AtRefill)
  | AtRefill => Some (mk_shared (refill_step (limiter sh) a) (locked sh), AtDebit)
  | AtDebit =>
      match debit_step (limiter sh) a with
      | Some (rl, allowed) => Some (mk_shared rl (locked sh), AtRelease allowed)
      | None => None
      end
  | AtRelease allowed => Some (mk_shared (limiter sh) false, AtReturn allowed)
  | AtReturn _ => None
  end.

(** The scheduler lets thread [i] make a step, if it can. *)
Definition schedule_step (cfg : shared * list (call * pc)) (i : nat)
  : shared * list (call * pc) :=
  match cfg.2 !! i with
  | Some (a, p) =>
      match thread_step cfg.1 a p with
      | Some (sh, p') => (sh, <[i:=(a, p')]> cfg.2)
      | None => cfg
      end
  | None => cfg
  end.

Definition interleave (cfg : shared * list (call * pc)) (sched : list nat)
  : shared * list (call * pc) :=
  fold_left schedule_step sched cfg.

(** One call, as [check] makes it. *)
Definition check_call (rl : t) (a : call) : t * bool :=
  check rl (call_request a) (call_cost a) (call_created a) (call_now a).

(** The calls made one after the other, each as one [check], in the given
    order of threads. *)
Definition serial_step (cfg : t * list (call * pc)) (i : nat)
  : t * list (call * pc) :=
  match cfg.2 !! i with
  | Some (a, _) =>
      let '(rl, allowed) := check_call cfg.1 a in
      (rl, <[i:=(a, AtReturn allowed)]> cfg.2)
  | None => cfg
  end.

Definition serial (cfg : t * list (call * pc)) (order : list nat)
  : t * list (call * pc) :=
  fold_left serial_step order cfg.



(** *** The retry delay, as the specification words it

    "compute [max(0, (cost - current_tokens) / refill_rate)] after
    refilling": the delay computed from the bucket as [_refill] leaves it
    at time [now]. *)
Definition retry_after_refilled (rl : t) (b : bucket) (cost : Z) (now : Q) : Q :=
  Qmax 0 ((inject_Z cost - tokens (_refill rl b now)) / _refill_rate rl).

End Defs.
Arguments call : clear implicits.

(** In the concrete runs below a request is its own client key. *)
Definition key_of (request : string) : string := request.

End RateLimiter.

(** ** [app/core/queue.py]: classes [QueueItem] and [InferenceQueue]

    The event loop is single-threaded and cooperative.  The embedding
    follows one worker; what the awaited work does is given by its
    [completion], and [process] takes the state as an argument, so that
    whatever other tasks did before the worker resolves the future
    (cancelling the caller, say) is covered by quantifying over that state.
    Futures are shared between the submitter and the worker: they live in a
    store, and an item holds a handle into it. *)

Module InferenceQueue.
Section Defs.

(** The type of results of the submitted work ([Any] in the source). *)
Context {Any : Type}.

(** What awaiting [item.coroutine_factory()] comes to. *)
Inductive completion : Type :=
| Returns (v : Any)
| Raises (e : exn).

(** The states of an [asyncio.Future]. *)
Inductive fstate : Type :=
| Pending
| Cancelled
| Finished_result (v : Any)
| Finished_exception (e : exn).

(** [QueueItem]; [created_at] and [priority] are never read. *)
Record QueueItem : Type := mk_item {
  id : string;
  coroutine_factory : unit -> completion;
  future : nat
}.

(** *** [asyncio.Future] *)

Definition future_state (h : gmap nat fstate) (f : nat) : fstate :=
  default Pending (h !! f).

(** [loop.create_future()] *)
Definition create_future (h : gmap nat fstate) : nat * gmap nat fstate :=
  let f := fresh (dom h) in (f, <[f:=Pending]> h).

(** [future.done()] *)
Definition done (h : gmap nat fstate) (f : nat) : bool :=
  match future_state h f with
  | Pending => false
  | _ => true
  end.

(** [future.set_result(v)] *)
Definition set_result (h : gmap nat fstate) (f : nat) (v : Any)
  : gmap nat fstate + exn :=
  if done h f then inr InvalidStateError else inl (<[f:=Finished_result v]> h).

(** [future.set_exception(e)] *)
Definition set_exception (h : gmap nat fstate) (f : nat) (e : exn)
  : gmap nat fstate + exn :=
  if done h f then inr InvalidStateError else inl (<[f:=Finished_exception e]> h).

(** [await future], seen from the awaiting caller: [None] while the future
    is pending and the caller stays suspended. *)
Definition await_future (h : gmap nat fstate) (f : nat) : option completion :=
  match future_state h f with
  | Pending => None
  | Cancelled => Some (Raises CancelledError)
  | Finished_result v => Some (Returns v)
  | Finished_exception e => Some (Raises e)
  end.

(** *** [asyncio.Queue] *)

Record AsyncQueue : Type := mk_queue {
  items : list QueueItem;
  maxsize : Z;
  unfinished_tasks : Z
}.

(** [asyncio.Queue(maxsize=n)] *)
Definition new_queue (n : Z) : AsyncQueue := mk_queue [] n 0.

Definition qsize (q : AsyncQueue) : Z := Z.of_nat (length (items q)).

(** [Queue.full]: a [maxsize] of zero or less means an unbounded queue. *)
Definition full (q : AsyncQueue) : bool :=
  if maxsize q <=? 0 then false else qsize q >=? maxsize q.

(** [Queue.put_nowait] *)
Definition put_nowait (q : AsyncQueue) (item : QueueItem) : AsyncQueue + exn :=
  if full q then inr QueueFull
  else inl (mk_queue (items q ++ [item]) (maxsize q) (unfinished_tasks q + 1)).

(** [Queue.get] on a queue that has an item; [None] when the caller has to
    wait. *)
Definition get_nowait (q : AsyncQueue) : option (QueueItem * AsyncQueue) :=
  match items q with
  | [] => None
  | item :: rest => Some (item, mk_queue rest (maxsize q) (unfinished_tasks q))
  end.

(** [Queue.task_done] *)
Definition task_done (q : AsyncQueue) : AsyncQueue + exn :=
  if unfinished_tasks q <=? 0 then inr ValueError
  else inl (mk_queue (items q) (maxsize q) (unfinished_tasks q - 1)).

(** *** [InferenceQueue] *)

Record t : Type := mk {
  _queue : AsyncQueue;
  _max_concurrent : Z;
  _max_queue_size : Z;
  _active_tasks : Z;
  _total_processed : Z;
  _total_errors : Z;
  _running : bool
}.

(** The queue object together with the store of futures. *)
Record state : Type := mk_state { self : t; futures : gmap nat fstate }.

(** [InferenceQueue(max_concurrent, max_queue_size)] *)
Definition init (max_concurrent max_queue_size : Z) : t :=
  mk (new_queue max_queue_size) max_concurrent max_queue_size 0 0 0 false.

Definition with_queue (s : t) (q : AsyncQueue) : t :=
  mk q (_max_concurrent s) (_max_queue_size s) (_active_tasks s)
     (_total_processed s) (_total_errors s) (_running s).

Definition add_active (s : t) (d : Z) : t :=
  mk (_queue s) (_max_concurrent s) (_max_queue_size s) (_active_tasks s + d)
     (_total_processed s) (_total_errors s) (_running s).

Definition incr_processed (s : t) : t :=
  mk (_queue s) (_max_concurrent s) (_max_queue_size s) (_active_tasks s)
     (_total_processed s + 1) (_total_errors s) (_running s).

Definition incr_errors (s : t) : t :=
  mk (_queue s) (_max_concurrent s) (_max_queue_size s) (_active_tasks s)
     (_total_processed s) (_total_errors s + 1) (_running s).

Definition with_running (s : t) (b : bool) : t :=
  mk (_queue s) (_max_concurrent s) (_max_queue_size s) (_active_tasks s)
     (_total_processed s) (_total_errors s) b.

(** [InferenceQueue.start] and [InferenceQueue.stop], on the flag. *)
Definition start (st : state) : state :=
  if _running (self st) then st
  else mk_state (with_running (self st) true) (futures st).

Definition stop (st : state) : state :=
  mk_state (with_running (self st) false) (futures st).

(** [InferenceQueue.submit], up to its only suspension point: it either
    raises [QueueFull] before suspending, or reaches [return await future]
    with the handle of the future it created; what the caller then gets is
    [await_future] of that handle. *)
Definition submit (st : state) (task_id : string)
    (factory : unit -> completion) : outcome state nat :=
  let '(f, h) := create_future (futures st) in
  let item := mk_item task_id factory f in
  match put_nowait (_queue (self st)) item with
  | inr e => Raised (mk_state (self st) h) e
  | inl q => Returned (mk_state (with_queue (self st) q) h) f
  end.

(** [InferenceQueue.is_full] *)
Definition is_full (st : state) : bool := full (_queue (self st)).

(** The [try] block of [_worker], resumed with the work's completion [r]. *)
Definition try_block (st : state) (item : QueueItem) (r : completion)
  : outcome state unit :=
  match r with
  | Raises e => Raised st e
  | Returns v =>
      match set_result (futures st) (future item) v with
      | inr e => Raised st e
      | inl h => Returned (mk_state (incr_processed (self st)) h) tt
      end
  end.

(** The handler [except Exception as e]. *)
Definition except_block (st : state) (item : QueueItem) (e : exn)
  : outcome state unit :=
  let s := incr_errors (self st) in
  if done (futures st) (future item) then Returned (mk_state s (futures st)) tt
  else
    match set_exception (futures st) (future item) e with
    | inr e' => Raised (mk_state s (futures st)) e'
    | inl h => Returned (mk_state s h) tt
    end.

(** The [finally] block. *)
Definition finally_block (st : state) : outcome state unit :=
  let s := add_active (self st) (-1) in
  match task_done (_queue s) with
  | inr e => Raised (mk_state s (futures st)) e
  | inl q => Returned (mk_state (with_queue s q) (futures st)) tt
  end.

(** One item through the body of the worker loop, after the item was taken
    from the queue. *)
Definition process (st : state) (item : QueueItem) (r : completion)
  : outcome state unit :=
  let st0 := mk_state (add_active (self st) 1) (futures st) in
  let body :=
    match try_block st0 item r with
    | Returned s _ => Returned s tt
    | Raised s e => if is_Exception e then except_block s item e else Raised s e
    end in
  match body with
  | Returned s _ => finally_block s
  | Raised s e =>
      match finally_block s with
      | Returned s' _ => Raised s' e
      | Raised s' e' => Raised s' e'
      end
  end.

(** The same, on the state before the worker takes the item. *)
Definition take (st : state) : option (QueueItem * state) :=
  match get_nowait (_queue (self st)) with
  | None => None
  | Some (item, q) => Some (item, mk_state (with_queue (self st) q) (futures st))
  end.

(** How a run of the worker loop ends when nothing is raised: it found the
    queue empty and waits in [queue.get()], it saw [_running] false, or the
    fuel of the model ran out. *)
Inductive worker_status : Type := Parked | Stopped | OutOfFuel.

(** [InferenceQueue._worker], each item completing as its factory says. *)
Fixpoint _worker (fuel : nat) (st : state) : outcome state worker_status :=
  match fuel with
  | O => Returned st OutOfFuel
  | S fuel' =>
      if _running (self st) then
        match take st with
        | None => Returned st Parked
        | Some (item, st') =>
            match process st' item (coroutine_factory item tt) with
            | Returned st'' _ => _worker fuel' st''
            | Raised st'' e => Raised st'' e
            end
        end
      else Returned st Stopped
  end.

(** The state a future is resolved to by a completion. *)
Definition resolution (r : completion) : fstate :=
  match r with
  | Returns v => Finished_result v
  | Raises e => Finished_exception e
  end.

(** The work returns, or raises something [except Exception] catches. *)
Definition catchable (r : completion) : bool :=
  match r with
  | Returns _ => true
  | Raises e => is_Exception e
  end.

(** Well-formed states: the worker loop is on, every queued item has been
    counted by [put_nowait], and the queued items hold distinct futures that
    exist and are pending. *)
Record healthy (st : state) : Prop := mk_healthy {
  healthy_running : _running (self st) = true;
  healthy_counted :
    Z.of_nat (length (items (_queue (self st))))
    <= unfinished_tasks (_queue (self st));
  healthy_distinct : NoDup (map future (items (_queue (self st))));
  healthy_pending :
    Forall (fun item => futures st !! future item = Some Pending)
           (items (_queue (self st)))
}.

End Defs.
Arguments completion : clear implicits.
Arguments fstate : clear implicits.
Arguments QueueItem : clear implicits.
Arguments AsyncQueue : clear implicits.
Arguments t : clear implicits.
Arguments state : clear implicits.
End InferenceQueue.

(** ** [app/repositories/vector_store.py]: the search cache of
       [VectorStoreRepository]

    The repository reads through the cache of [get_search_cache()].  The
    Chroma collection is outside the embedding: what a call into it comes
    to (its result, or the exception it raises) is an argument.  The cache
    key is the SHA-256 digest that [_make_search_key] computes from the
    query, [k] and the filter; it is an argument as well. *)

Module VectorStoreRepository.
Section Defs.

(** The type of search results, a list of scored documents in the source. *)
Context {Results : Type}.

(** How a method of the repository ends: it returns, it raises
    [VectorStoreError] (from [except Exception]), or an exception that is not
    an [Exception] passes through. *)
Inductive ending (A : Type) : Type :=
| Ok (a : A)
| VectorStoreError
| Escaped (e : exn).
Arguments Ok {A} a.
Arguments VectorStoreError {A}.
Arguments Escaped {A} e.

(** [except Exception as e: raise VectorStoreError(...)] *)
Definition wrap {A : Type} (e : exn) : ending A :=
  if is_Exception e then VectorStoreError else Escaped e.

(** [VectorStoreRepository.similarity_search_with_score]; [now_get] and
    [now_set] are the clock readings of [get] and of [set]. *)
Definition similarity_search_with_score (c : TTLCache.t Results)
    (cache_key : string) (backend : Results + exn) (now_get now_set : Q)
  : TTLCache.t Results * ending Results :=
  let '(c1, cached) := TTLCache.get c cache_key now_get in
  match cached with
  | Some r => (c1, Ok r)
  | None =>
      match backend with
      | inr e => (c1, wrap e)
      | inl r =>
          match TTLCache.set c1 cache_key r now_set with
          | Returned c2 _ => (c2, Ok r)
          | Raised c2 e => (c2, wrap e)
          end
      end
  end.

(** [VectorStoreRepository.add_documents], as far as the cache goes:
    [backend] is [None] when [vectorstore.add_documents] returns, and [n] is
    [len(documents)]. *)
Definition add_documents (c : TTLCache.t Results) (n : Z) (backend : option exn)
  : TTLCache.t Results * ending Z :=
  match backend with
  | None => (TTLCache.clear c, Ok n)
  | Some e => (c, wrap e)
  end.

(** [VectorStoreRepository.delete_by_source], as far as the cache goes:
    [backend] tells whether the collection held chunks of the source. *)
Definition delete_by_source (c : TTLCache.t Results) (backend : bool + exn)
  : TTLCache.t Results * ending bool :=
  match backend with
  | inl true => (TTLCache.clear c, Ok true)
  | inl false => (c, Ok false)
  | inr e => (c, wrap e)
  end.

End Defs.
Arguments Ok {A} a.
Arguments VectorStoreError {A}.
Arguments Escaped {A} e.
End VectorStoreRepository.

(** ** Counting the calls of a run of the cache *)

Module TTLCacheRuns.
Section Defs.
Context {Any : Type}.

(** The number of [get] calls in a run. *)
Definition gets (ops : list (TTLCache.op Any)) : Z :=
  Z.of_nat (length (List.filter
    (fun o => match o with TTLCache.OpGet _ _ => true | _ => false end) ops)).

(** The entries a sweep at [now] keeps. *)
Definition live (ttl_seconds : Z) (now : Q) (d : TTLCache.odict Any)
  : TTLCache.odict Any :=
  List.filter (fun kv => negb (TTLCache.expired ttl_seconds now (snd kv))) d.

End Defs.
End TTLCacheRuns.

(** ** [app/core/rate_limiter.py]: the remaining methods of [RateLimiter] *)

Module RateLimiterOps.
Import RateLimiter.
Section Defs.

Context {Request : Type}.
Variable _get_client_key : Request -> string.

(** [now - v["last_refill"] > self._window_seconds * 10] *)
Definition stale (rl : t) (now : Q) (b : bucket) : bool :=
  Qgtb (now - last_refill b) (inject_Z (_window_seconds rl * 10)).

(** The list [stale] of [RateLimiter.cleanup].  The order in which the keys
    are listed plays no part in what follows. *)
Definition stale_keys (rl : t) (now : Q) : list string :=
  (List.filter (fun kv => stale rl now (snd kv)) (map_to_list (_buckets rl))).*1.

(** [RateLimiter.cleanup] *)
Definition cleanup (rl : t) (now : Q) : t * Z :=
  let keys := stale_keys rl now in
  (mk (_max_tokens rl) (_refill_rate rl) (_window_seconds rl)
      (fold_left (fun m key => delete key m) keys (_buckets rl)),
   Z.of_nat (length keys)).

(** [RateLimiter.get_stats]: [active_clients], [max_tokens],
    [refill_rate_per_second]. *)
Definition get_stats (rl : t) : Z * Z * Q :=
  (Z.of_nat (size (_buckets rl)), _max_tokens rl, _refill_rate rl).

(** A sequence of [check] calls, with the answers in order. *)
Fixpoint checks (rl : t) (calls : list (call Request)) : t * list bool :=
  match calls with
  | [] => (rl, [])
  | a :: calls' =>
      let '(rl1, allowed) := check_call _get_client_key rl a in
      let '(rl2, rest) := checks rl1 calls' in
      (rl2, allowed :: rest)
  end.

(** The clock never goes back: every reading of a sequence of calls is at
    least [start] and at least the readings before it. *)
Fixpoint clock_advances (start : Q) (calls : list (call Request)) : Prop :=
  match calls with
  | [] => True
  | a :: calls' =>
      (start <= call_created a)%Q /\ (call_created a <= call_now a)%Q
      /\ clock_advances (call_now a) calls'
  end.

(** Every bucket holds between 0 and [max_tokens] tokens and was refilled
    no later than [clock]. *)
Definition within_bounds (rl : t) (clock : Q) : Prop :=
  forall key b, _buckets rl !! key = Some b ->
    (0 <= tokens b)%Q /\ (tokens b <= inject_Z (_max_tokens rl))%Q
    /\ (last_refill b <= clock)%Q.

(** The cost that the calls of the client [key] were allowed to spend,
    given the answers to the calls. *)
Fixpoint admitted_cost (key : string) (calls : list (call Request))
    (answers : list bool) : Z :=
  match calls, answers with
  | a :: calls', allowed :: answers' =>
      (if allowed && bool_decide (_get_client_key (call_request a) = key)
       then call_cost a else 0)
      + admitted_cost key calls' answers'
  | _, _ => 0
  end.

(** The last clock reading of a sequence of calls that starts at [start]. *)
Fixpoint last_clock (start : Q) (calls : list (call Request)) : Q :=
  match calls with
  | [] => start
  | a :: calls' => last_clock (call_now a) calls'
  end.

(** The tokens the client [key] can count on at time [clock]: what a refill
    at [clock] leaves in its bucket, a full bucket if it has none. *)
Definition available (rl : t) (key : string) (clock : Q) : Q :=
  tokens (_refill rl (default (mk_bucket (inject_Z (_max_tokens rl)) clock)
                              (_buckets rl !! key)) clock).

(** A bucket that the next refill fills to the capacity: it is not in debt
    and has been idle long enough by the time [clock]. *)
Definition saturated (rl : t) (clock : Q) (b : bucket) : Prop :=
  (0 <= tokens b)%Q
  /\ (inject_Z (_max_tokens rl)
      <= tokens b + (clock - last_refill b) * _refill_rate rl)%Q.

(** Two limiters with the same settings whose buckets hold the same number
    of tokens, except that the second may lack buckets of the first that
    are saturated. *)
Definition agree (rl rl' : t) (clock : Q) : Prop :=
  _max_tokens rl' = _max_tokens rl
  /\ _refill_rate rl' = _refill_rate rl
  /\ forall key,
       match _buckets rl !! key, _buckets rl' !! key with
       | Some b, Some b' =>
           (tokens b == tokens b')%Q /\ last_refill b = last_refill b'
       | Some b, None => saturated rl clock b
       | None, Some _ => False
       | None, None => True
       end.

End Defs.
End RateLimiterOps.

(** ** [RateLimiter._get_client_key]

    A request as the limiter reads it: the [X-Forwarded-For] header, if the
    request has one, and the host of [request.client], if the connection is
    known.  Header values are Latin-1 text, one character per byte. *)

Module ClientKey.

Record Request : Type := mk_request {
  x_forwarded_for : option string;
  client_host : option string
}.

(** [str.isspace] on the characters below 256: tab, line feed, vertical
    tab, form feed, carriage return, the four separators 28 to 31, space,
    next line (133) and no-break space (160). *)
Definition is_space (a : Ascii.ascii) : bool :=
  let n := Ascii.nat_of_ascii a in
  ((9 <=? n) && (n <=? 13) || (28 <=? n) && (n <=? 32)
   || (n =? 133) || (n =? 160))%nat.

(** [s.lstrip()], on the list of characters *)
Fixpoint lstrip (l : list Ascii.ascii) : list Ascii.ascii :=
  match l with
  | [] => []
  | a :: l' => if is_space a then lstrip l' else l
  end.

(** [s.strip()] *)
Definition strip (l : list Ascii.ascii) : list Ascii.ascii :=
  rev (lstrip (rev (lstrip l))).

(** The comma, character 44. *)
Definition comma : Ascii.ascii := Ascii.ascii_of_nat 44.

(** [s.split(",")[0]]: the text before the first comma. *)
Fixpoint first_entry (l : list Ascii.ascii) : list Ascii.ascii :=
  match l with
  | [] => []
  | a :: l' => if Ascii.eqb a comma then [] else a :: first_entry l'
  end.

(** [RateLimiter._get_client_key] *)
Definition _get_client_key (request : Request) : string :=
  match x_forwarded_for request with
  | Some (String a s) =>
      String.string_of_list_ascii (strip (first_entry (String.list_ascii_of_string (String a s))))
  | _ =>
      match client_host request with
      | Some host => host
      | None => "unknown"%string
      end
  end.

End ClientKey.

(** ** [app/api/routes/chat.py]: the rate limiting of the chat routes *)

Module ChatRoute.
Import RateLimiter.
Section Defs.

Context {Request : Type}.
Variable _get_client_key : Request -> string.

(** What the first lines of [chat] and [chat_stream] decide: the request
    goes on to the chat service, or it is answered with status 429 and the
    header [Retry-After: str(int(retry_after))]. *)
Inductive verdict : Type :=
| Proceed
| TooManyRequests (retry_after_header : Z).

(** [if not limiter.check(request, cost=1): retry_after =
    limiter.get_retry_after(request); raise HTTPException(429, ...)].  An
    exception of [get_retry_after] leaves the route as it is. *)
Definition rate_limit (rl : t) (request : Request) (created now : Q)
  : outcome t verdict :=
  let '(rl1, allowed) := check _get_client_key rl request 1 created now in
  if allowed then Returned rl1 Proceed
  else
    match get_retry_after _get_client_key rl1 request 1 created with
    | Returned rl2 retry_after => Returned rl2 (TooManyRequests (py_int retry_after))
    | Raised rl2 e => Raised rl2 e
    end.

End Defs.
End ChatRoute.

(** ** [app/core/queue.py]: callers and the worker over time *)

Module InferenceQueueRuns.
Import InferenceQueue.
Section Defs.

Context {Any : Type}.

(** The state an operation leaves, whether it returned or raised. *)
Definition after {A : Type} (o : outcome (state Any) A) : state Any :=
  match o with
  | Returned s _ => s
  | Raised s _ => s
  end.

(** Callers that call [submit] one after the other, each up to its
    suspension point ([await future]); every call answers with the handle
    of the future its caller awaits, or with the exception raised. *)
Fixpoint submit_all (st : state Any)
    (works : list (string * (unit -> completion Any)))
  : state Any * list (nat + exn) :=
  match works with
  | [] => (st, [])
  | (task_id, factory) :: works' =>
      match submit st task_id factory with
      | Returned st1 f =>
          let '(st2, rest) := submit_all st1 works' in (st2, inl f :: rest)
      | Raised st1 e =>
          let '(st2, rest) := submit_all st1 works' in (st2, inr e :: rest)
      end
  end.

(** What happens to the queue over time: a caller reaches [submit], or the
    worker goes through its loop at most [turns] times. *)
Inductive event : Type :=
| Submits (task_id : string) (factory : unit -> completion Any)
| Works (turns : nat).

Definition step (st : state Any) (ev : event) : state Any :=
  match ev with
  | Submits task_id factory => after (submit st task_id factory)
  | Works turns => after (_worker turns st)
  end.

Definition run (st : state Any) (evs : list event) : state Any :=
  fold_left step evs st.

(** The work an event brings in returns or raises an [Exception]. *)
Definition catchable_event (ev : event) : Prop :=
  match ev with
  | Submits _ factory => catchable (factory tt) = true
  | Works _ => True
  end.

(** How many of the completions are results, and how many are errors. *)
Definition returned_count (rs : list (completion Any)) : Z :=
  Z.of_nat (length (List.filter (fun r => match r with
                                          | Returns _ => true
                                          | Raises _ => false
                                          end) rs)).

Definition raised_count (rs : list (completion Any)) : Z :=
  Z.of_nat (length (List.filter (fun r => match r with
                                          | Returns _ => false
                                          | Raises _ => true
                                          end) rs)).

End Defs.
End InferenceQueueRuns.

(** * Part II: properties *)

Module PyFacts.

Lemma Qgtb_true x y : Qgtb x y = true <-> (y < x)%Q.
Proof.
  unfold Qgtb. rewrite negb_true_iff, <- not_true_iff_false, Qle_bool_iff.
  split; [apply Qnot_le_lt | apply Qlt_not_le].
Qed.

Lemma Qgtb_false x y : Qgtb x y = false <-> (x <= y)%Q.
Proof. unfold Qgtb. rewrite negb_false_iff. apply Qle_bool_iff. Qed.

End PyFacts.
Import PyFacts.

(** ** The cache *)

Module TTLCacheFacts.
Import TTLCache.
Section Facts.

Context {Any : Type}.
Implicit Types (d : odict Any) (c : t Any) (e : entry Any) (key k : string).
Implicit Types (o : op Any) (ops : list (op Any)).

(** *** The ordered dictionary *)

Lemma od_lookup_None key d : od_lookup key d = None <-> key ∉ keys d.
Proof.
  induction d as [|[k e] d IH]; simpl.
  - split; [intros _; apply not_elem_of_nil | done].
  - rewrite not_elem_of_cons. destruct (String.eqb_spec k key) as [->|Hne].
    + split; [done | intros [? _]; done].
    + rewrite IH. split; [intros ?; split; congruence | intros [_ ?]; done].
Qed.

Lemma od_lookup_Some_elem key d e : od_lookup key d = Some e -> key ∈ keys d.
Proof.
  intros H. destruct (decide (key ∈ keys d)) as [|Hn]; [done|].
  apply od_lookup_None in Hn. congruence.
Qed.

(** A stored key splits the dictionary around its first occurrence. *)
Lemma od_lookup_split key d e :
  od_lookup key d = Some e ->
  exists d1 d2, d = d1 ++ (key, e) :: d2
                /\ (key ∉ keys d1)
                /\ od_delete key d = d1 ++ d2.
Proof.
  induction d as [|[k e0] d IH]; simpl; [done|].
  destruct (String.eqb_spec k key) as [->|Hne].
  - intros [= ->]. exists [], d. split_and!; [done | apply not_elem_of_nil | done].
  - intros (d1 & d2 & -> & Hd1 & ->)%IH.
    exists ((k, e0) :: d1), d2. split_and!; [done | | done].
    simpl. rewrite not_elem_of_cons. split; [congruence | done].
Qed.

Lemma od_delete_absent key d : key ∉ keys d -> od_delete key d = d.
Proof.
  induction d as [|[k e] d IH]; simpl; [done|].
  rewrite not_elem_of_cons. intros [Hne Hd].
  destruct (String.eqb_spec k key) as [->|_]; [done|]. by rewrite IH.
Qed.

Lemma od_delete_sublist key d : keys (od_delete key d) `sublist_of` keys d.
Proof.
  induction d as [|[k e] d IH]; simpl; [done|].
  destruct (String.eqb k key); simpl.
  - by apply sublist_cons.
  - by apply sublist_skip.
Qed.

Lemma od_delete_length_le key d : (length (od_delete key d) <= length d)%nat.
Proof.
  induction d as [|[k e] d IH]; simpl; [lia|].
  destruct (String.eqb k key); simpl; lia.
Qed.

Lemma od_delete_NoDup key d : NoDup (keys d) -> NoDup (keys (od_delete key d)).
Proof. intros H. eapply sublist_NoDup; [done | apply od_delete_sublist]. Qed.

(** In a dictionary (no key twice) a deleted key is gone. *)
Lemma od_delete_gone key d :
  NoDup (keys d) -> od_lookup key (od_delete key d) = None.
Proof.
  intros Hnd. destruct (od_lookup key d) as [e|] eqn:E.
  - destruct (od_lookup_split _ _ _ E) as (d1 & d2 & -> & Hd1 & ->).
    apply od_lookup_None. unfold keys in *.
    rewrite map_app in *. simpl in Hnd.
    apply NoDup_app in Hnd as (_ & _ & Hnd).
    apply NoDup_cons in Hnd as [Hd2 _].
    rewrite not_elem_of_app. done.
  - apply od_lookup_None in E as E'. rewrite od_delete_absent; done.
Qed.

Lemma od_move_to_end_length key d : length (od_move_to_end key d) = length d.
Proof.
  unfold od_move_to_end. destruct (od_lookup key d) as [e|] eqn:E; [|done].
  destruct (od_lookup_split _ _ _ E) as (d1 & d2 & -> & _ & ->).
  repeat (rewrite ?length_app; simpl). lia.
Qed.

Lemma od_move_to_end_last key d e :
  od_lookup key d = Some e -> last (keys (od_move_to_end key d)) = Some key.
Proof.
  intros E. unfold od_move_to_end, keys. rewrite E, map_app. apply last_snoc.
Qed.

Lemma od_move_to_end_NoDup key d :
  NoDup (keys d) -> NoDup (keys (od_move_to_end key d)).
Proof.
  intros Hnd. unfold od_move_to_end.
  destruct (od_lookup key d) as [e|] eqn:E; [|done].
  destruct (od_lookup_split _ _ _ E) as (d1 & d2 & -> & Hd1 & ->).
  unfold keys in *. rewrite !map_app in *. simpl in *.
  apply NoDup_app in Hnd as (H1 & H12 & [H2 Hd2]%NoDup_cons).
  apply NoDup_app. split_and!.
  - apply NoDup_app. split_and!; [done | | done].
    intros x Hx Hx2. apply (H12 x Hx). by right.
  - intros x [Hx|Hx]%elem_of_app ->%list_elem_of_singleton; done.
  - apply NoDup_singleton.
Qed.

Lemma od_setitem_length_le key e d :
  (length (od_setitem key e d) <= S (length d))%nat.
Proof.
  induction d as [|[k e0] d IH]; simpl; [lia|].
  destruct (String.eqb k key); simpl; lia.
Qed.

Lemma od_setitem_absent key e d :
  key ∉ keys d -> od_setitem key e d = d ++ [(key, e)].
Proof.
  induction d as [|[k e0] d IH]; simpl; [done|].
  rewrite not_elem_of_cons. intros [Hne Hd].
  destruct (String.eqb_spec k key) as [->|_]; [done|]. by rewrite IH.
Qed.

Lemma od_setitem_keys key e d :
  keys (od_setitem key e d) = if decide (key ∈ keys d) then keys d else keys d ++ [key].
Proof.
  induction d as [|[k e0] d IH].
  - cbn [od_setitem keys map]. case_decide as H; [by apply elem_of_nil in H | done].
  - cbn [od_setitem]. destruct (String.eqb_spec k key) as [->|Hne].
    + rewrite decide_True; [done | by left].
    + change (keys ((k, e0) :: ?x)) with (k :: keys x). rewrite IH.
      destruct (decide (key ∈ keys d)) as [Hin|Hnin].
      * rewrite decide_True; [done | by right].
      * rewrite decide_False; [done|]. rewrite not_elem_of_cons. split; congruence.
Qed.

Lemma od_setitem_NoDup key e d :
  NoDup (keys d) -> NoDup (keys (od_setitem key e d)).
Proof.
  intros Hnd. rewrite od_setitem_keys. case_decide; [done|].
  apply NoDup_app. split_and!; [done | | apply NoDup_singleton].
  intros x Hx ->%list_elem_of_singleton. done.
Qed.

Lemma od_lookup_setitem key e d : od_lookup key (od_setitem key e d) = Some e.
Proof.
  induction d as [|[k e0] d IH]; simpl.
  - by rewrite String.eqb_refl.
  - destruct (String.eqb k key) eqn:E; simpl; by rewrite E.
Qed.

Lemma fold_delete_length_le ks d :
  (length (fold_left (fun d k => od_delete k d) ks d) <= length d)%nat.
Proof.
  revert d. induction ks as [|k ks IH]; intros d; simpl; [lia|].
  etrans; [apply IH | apply od_delete_length_le].
Qed.

Lemma fold_delete_NoDup ks d :
  NoDup (keys d) -> NoDup (keys (fold_left (fun d k => od_delete k d) ks d)).
Proof.
  revert d. induction ks as [|k ks IH]; intros d Hnd; simpl; [done|].
  by apply IH, od_delete_NoDup.
Qed.

(** *** The eviction loop *)

(** With a positive capacity the loop ends normally, on a suffix of the
    dictionary that has room for one more entry. *)
Lemma evict_positive max_size d :
  1 <= max_size ->
  exists d' gone, evict max_size d = Some d'
                  /\ Z.of_nat (length d') < max_size
                  /\ d = gone ++ d'.
Proof.
  intros Hpos. induction d as [|kv d IH].
  - simpl. destruct (Z.geb_spec 0 max_size); [lia|].
    exists [], []. split_and!; [done | simpl; lia | done].
  - cbn [evict]. destruct (Z.geb_spec (Z.of_nat (length (kv :: d))) max_size).
    + destruct IH as (d' & gone & -> & Hlen & ->).
      exists d', (kv :: gone). done.
    + exists (kv :: d), []. split_and!; [done | lia | done].
Qed.

(** Below capacity nothing is evicted. *)
Lemma evict_room max_size d :
  Z.of_nat (length d) < max_size -> evict max_size d = Some d.
Proof.
  intros H. destruct d as [|kv d]; cbn [evict].
  - simpl in H. destruct (Z.geb_spec 0 max_size); [lia | done].
  - destruct (Z.geb_spec (Z.of_nat (length (kv :: d))) max_size); [lia | done].
Qed.

(** At capacity exactly the first position is evicted. *)
Lemma evict_full max_size kv d :
  Z.of_nat (length (kv :: d)) = max_size -> evict max_size (kv :: d) = Some d.
Proof.
  intros H. cbn [evict].
  destruct (Z.geb_spec (Z.of_nat (length (kv :: d))) max_size); [|lia].
  apply evict_room. simpl in H. lia.
Qed.

(** *** Single calls *)

Lemma set_positive c key v now :
  1 <= _max_size c ->
  exists c', set c key v now = Returned c' tt
             /\ Z.of_nat (length (_cache c')) <= _max_size c
             /\ _max_size c' = _max_size c
             /\ _ttl_seconds c' = _ttl_seconds c
             /\ (NoDup (keys (_cache c)) -> NoDup (keys (_cache c'))).
Proof.
  intros Hpos. unfold set.
  destruct (evict_positive (_max_size c) (_cache c) Hpos)
    as (d' & gone & -> & Hlen & Hd).
  eexists. split_and!; [done | | done | done |]; simpl.
  - pose proof (od_setitem_length_le key (mk_entry v now) d'). lia.
  - intros Hnd. apply od_setitem_NoDup. rewrite Hd in Hnd. unfold keys in *.
    rewrite map_app in Hnd. by apply NoDup_app in Hnd as (_ & _ & ?).
Qed.

Lemma set_stores c key v now c' :
  set c key v now = Returned c' tt ->
  od_lookup key (_cache c') = Some (mk_entry v now).
Proof.
  unfold set. destruct (evict _ _); [|done]. intros [= <-]. simpl.
  apply od_lookup_setitem.
Qed.

Lemma step_positive c o :
  1 <= _max_size c ->
  Z.of_nat (length (_cache c)) <= _max_size c ->
  exists c', step c o = Returned c' tt
             /\ Z.of_nat (length (_cache c')) <= _max_size c'
             /\ _max_size c' = _max_size c.
Proof.
  intros Hpos Hlen. destruct o as [key now|key v now|key| |now]; simpl.
  - eexists. split; [done|]. unfold get.
    destruct (od_lookup key (_cache c)) as [e|]; [destruct (expired _ _ _)|];
      simpl; split; try done.
    + pose proof (od_delete_length_le key (_cache c)). lia.
    + rewrite od_move_to_end_length. lia.
  - destruct (set_positive c key v now Hpos) as (c' & -> & ? & Hm & _).
    exists c'. rewrite Hm. done.
  - eexists. split; [done|]. unfold invalidate.
    destruct (od_lookup key (_cache c)); simpl; split; try done.
    pose proof (od_delete_length_le key (_cache c)). lia.
  - eexists. split; [done|]. simpl. split; [lia | done].
  - eexists. split; [done|]. simpl. split; [|done].
    match goal with |- context [fold_left ?f ?ks ?d] =>
      pose proof (fold_delete_length_le ks d) end. lia.
Qed.

Lemma run_positive c ops :
  1 <= _max_size c ->
  Z.of_nat (length (_cache c)) <= _max_size c ->
  exists c', run c ops = Returned c' tt
             /\ Z.of_nat (length (_cache c')) <= _max_size c'
             /\ _max_size c' = _max_size c.
Proof.
  revert c. induction ops as [|o ops IH]; intros c Hpos Hlen; simpl.
  - by exists c.
  - destruct (step_positive c o Hpos Hlen) as (c1 & -> & Hlen1 & Hm1).
    destruct (IH c1) as (c2 & -> & Hlen2 & Hm2); [lia | done |].
    exists c2. split_and!; [done | done | congruence].
Qed.


(** *** Order of last use *)

Implicit Types (log : gmap string nat).











(** *** What [get] does, by cases *)

Lemma get_miss c key now :
  od_lookup key (_cache c) = None ->
  get c key now
  = (mk (_cache c) (_max_size c) (_ttl_seconds c) (_hits c) (_misses c + 1), None).
Proof. intros E. unfold get. by rewrite E. Qed.

Lemma get_hit c key now e :
  od_lookup key (_cache c) = Some e ->
  (now - timestamp e <= inject_Z (_ttl_seconds c))%Q ->
  get c key now
  = (mk (od_move_to_end key (_cache c)) (_max_size c) (_ttl_seconds c)
        (_hits c + 1) (_misses c),
     Some (value e)).
Proof.
  intros E Hle. unfold get, expired. rewrite E.
  apply Qgtb_false in Hle. by rewrite Hle.
Qed.

Lemma get_stale c key now e :
  od_lookup key (_cache c) = Some e ->
  (inject_Z (_ttl_seconds c) < now - timestamp e)%Q ->
  get c key now
  = (mk (od_delete key (_cache c)) (_max_size c) (_ttl_seconds c)
        (_hits c) (_misses c + 1),
     None).
Proof.
  intros E Hlt. unfold get, expired. rewrite E.
  apply Qgtb_true in Hlt. by rewrite Hlt.
Qed.

Lemma od_lookup_elem key d e : od_lookup key d = Some e -> (key, e) ∈ d.
Proof.
  intros (d1 & d2 & -> & _ & _)%od_lookup_split.
  apply elem_of_app. right. by left.
Qed.



(** *** Logged runs of [get] and [set] *)


(** *** Capacity and eviction order *)


(** *** The size bound *)

(** C9, amended.  For a cache of capacity [max_size >= 1] every sequence of
    [get], [set], [invalidate], [clear] and [cleanup_expired] calls from the
    empty cache runs without an exception (so no [set] in it raises), ends
    with at most [max_size] entries, and a further [set] returns as well.
    The sequence is arbitrary, so the bound holds after each of its
    calls. *)
Theorem size_bounded_and_set_total (max_size ttl : Z) ops key v now :
  1 <= max_size ->
  exists c c',
    run (init max_size ttl) ops = Returned c tt
    /\ Z.of_nat (length (_cache c)) <= max_size
    /\ set c key v now = Returned c' tt
    /\ Z.of_nat (length (_cache c')) <= max_size.
Proof.
  intros Hpos.
  destruct (run_positive (init max_size ttl) ops) as (c & Hrun & Hlen & Hm);
    simpl; [lia | lia |].
  simpl in Hm. rewrite Hm in Hlen.
  destruct (set_positive c key v now) as (c' & Hset & Hlen' & _); [lia|].
  exists c, c'. rewrite Hm in Hlen'. done.
Qed.

(** *** Time to live *)

(** C6.  Let [key] be set at time [T], and let [c] be any state of the
    cache that still stores what that [set] wrote under [key].  A [get] at
    a time [now <= T + ttl], so in particular at any time before [T + ttl],
    returns the stored value, counts a hit and moves the key to the
    most-recently-used end.  A [get] at a time [now > T + ttl] removes the
    entry, counts a miss and returns [None]. *)
Theorem get_honours_ttl c0 c1 c key v T now :
  set c0 key v T = Returned c1 tt ->
  NoDup (keys (_cache c)) ->
  od_lookup key (_cache c) = od_lookup key (_cache c1) ->
  ((now <= T + inject_Z (_ttl_seconds c))%Q ->
     get c key now
     = (mk (od_move_to_end key (_cache c)) (_max_size c) (_ttl_seconds c)
           (_hits c + 1) (_misses c),
        Some v)
     /\ last (keys (od_move_to_end key (_cache c))) = Some key)
  /\ ((T + inject_Z (_ttl_seconds c) < now)%Q ->
     get c key now
     = (mk (od_delete key (_cache c)) (_max_size c) (_ttl_seconds c)
           (_hits c) (_misses c + 1),
        None)
     /\ od_lookup key (od_delete key (_cache c)) = None).
Proof.
  intros Hset Hnd Hsame. rewrite (set_stores _ _ _ _ _ Hset) in Hsame.
  split; intros Hnow.
  - split; [|by eapply od_move_to_end_last].
    rewrite (get_hit c key now _ Hsame); [done|]. simpl. lra.
  - split; [|by apply od_delete_gone].
    rewrite (get_stale c key now _ Hsame); [done|]. simpl. lra.
Qed.

(** C10.  When the TTL of a stored entry has elapsed and the entry has not
    been removed yet, [invalidate] removes it and returns [True], while a
    [get] at that moment removes it, counts a miss and returns [None]:
    [invalidate] reports that the entry was physically there, whatever its
    age. *)
Theorem invalidate_reports_presence c key e now :
  NoDup (keys (_cache c)) ->
  od_lookup key (_cache c) = Some e ->
  (inject_Z (_ttl_seconds c) < now - timestamp e)%Q ->
  invalidate c key
  = (mk (od_delete key (_cache c)) (_max_size c) (_ttl_seconds c)
        (_hits c) (_misses c),
     true)
  /\ get c key now
     = (mk (od_delete key (_cache c)) (_max_size c) (_ttl_seconds c)
           (_hits c) (_misses c + 1),
        None)
  /\ od_lookup key (od_delete key (_cache c)) = None.
Proof.
  intros Hnd E Hold. split_and!.
  - unfold invalidate. by rewrite E.
  - by apply get_stale with e.
  - by apply od_delete_gone.
Qed.

End Facts.

(** *** Concrete runs *)

Local Open Scope string_scope.
Local Open Scope list_scope.

(** Capacity 2: [a] and [b] are inserted, [a] is read, [c] is inserted.
    The entry that goes is [b], although [a] was inserted first. *)
Example touched_key_survives :
  run (init 2 3600) [OpSet "a" 1%nat 0%Q; OpSet "b" 2%nat 1%Q; OpGet "a" 2%Q;
                     OpSet "c" 3%nat 3%Q]
  = Returned (mk [("a", mk_entry 1%nat 0%Q); ("c", mk_entry 3%nat 3%Q)]
                 2 3600 1 0) tt.
Proof. reflexivity. Qed.

(** The same run without the [get]: now [a] goes. *)
Example untouched_key_is_evicted :
  run (init 2 3600) [OpSet "a" 1%nat 0%Q; OpSet "b" 2%nat 1%Q;
                     OpSet "c" 3%nat 3%Q]
  = Returned (mk [("b", mk_entry 2%nat 1%Q); ("c", mk_entry 3%nat 3%Q)]
                 2 3600 0 0) tt.
Proof. reflexivity. Qed.


Lemma size_bounded_and_set_total_witness :
  exists c c',
    run (init 1 60) [OpSet "a" 1%nat 0%Q; OpGet "a" 100%Q; OpSet "b" 2%nat 101%Q;
                     OpInvalidate "b"; OpClear; OpCleanupExpired 200%Q]
    = Returned c tt
    /\ Z.of_nat (length (_cache c)) <= 1
    /\ set c "z" 9%nat 201%Q = Returned c' tt
    /\ Z.of_nat (length (_cache c')) <= 1.
Proof. apply size_bounded_and_set_total. lia. Defined.

(** C9, as stated, fails for a cache built with [max_size = 0]: the loop of
    [set] finds [len(cache) >= max_size] on the empty dictionary, and
    [popitem] raises [KeyError]. *)
Lemma set_raises_without_capacity :
  set (init 0 3600) "k" 7%nat 0%Q = Raised (init 0 3600) KeyError
  /\ run (init 0 3600) [OpSet "k" 7%nat 0%Q] = Raised (init 0 3600) KeyError.
Proof. split; reflexivity. Qed.

Lemma get_honours_ttl_witness :
  let c := mk [("k", mk_entry 5%nat 10%Q)] 4 60 0 0 in
  ((30 <= 10 + inject_Z (_ttl_seconds c))%Q ->
     get c "k" 30%Q
     = (mk (od_move_to_end "k" (_cache c)) (_max_size c) (_ttl_seconds c)
           (_hits c + 1) (_misses c),
        Some 5%nat)
     /\ last (keys (od_move_to_end "k" (_cache c))) = Some "k")
  /\ ((10 + inject_Z (_ttl_seconds c) < 30)%Q ->
     get c "k" 30%Q
     = (mk (od_delete "k" (_cache c)) (_max_size c) (_ttl_seconds c)
           (_hits c) (_misses c + 1),
        None)
     /\ od_lookup "k" (od_delete "k" (_cache c)) = None).
Proof.
  apply (get_honours_ttl (init 4 60) (mk [("k", mk_entry 5%nat 10%Q)] 4 60 0 0)).
  - reflexivity.
  - apply (bool_decide_unpack _). vm_compute. reflexivity.
  - reflexivity.
Defined.

Lemma invalidate_reports_presence_witness :
  let c := mk [("k", mk_entry 5%nat 10%Q)] 4 60 0 0 in
  invalidate c "k"
  = (mk (od_delete "k" (_cache c)) (_max_size c) (_ttl_seconds c)
        (_hits c) (_misses c),
     true)
  /\ get c "k" 100%Q
     = (mk (od_delete "k" (_cache c)) (_max_size c) (_ttl_seconds c)
           (_hits c) (_misses c + 1),
        None)
  /\ od_lookup "k" (od_delete "k" (_cache c)) = None.
Proof.
  apply (invalidate_reports_presence _ "k" (mk_entry 5%nat 10%Q)).
  - apply (bool_decide_unpack _). vm_compute. reflexivity.
  - reflexivity.
  - unfold Qlt. simpl. lia.
Defined.

End TTLCacheFacts.

(** ** The rate limiter *)

Module RateLimiterFacts.
Import RateLimiter.
Section Facts.

Context {Request : Type}.
Variable _get_client_key : Request -> string.
Implicit Types (rl : t) (b : bucket) (request : Request).

Lemma bucket_of_present rl key created b :
  _buckets rl !! key = Some b -> bucket_of rl key created = (rl, b).
Proof. intros E. unfold bucket_of. by rewrite E. Qed.

(** What [get_retry_after] computes for a client that has a bucket: the
    stored token count is used as it is, and the bucket is left as it is. *)
Lemma get_retry_after_stored rl request cost created b :
  _buckets rl !! _get_client_key request = Some b ->
  (tokens b < inject_Z cost)%Q ->
  ~ (_refill_rate rl == 0)%Q ->
  get_retry_after _get_client_key rl request cost created
  = Returned rl ((inject_Z cost - tokens b) / _refill_rate rl)%Q.
Proof.
  intros E Hlt Hr. unfold get_retry_after.
  rewrite (bucket_of_present _ _ _ _ E).
  destruct (Qle_bool _ 0) eqn:Hle.
  { apply Qle_bool_iff in Hle. lra. }
  destruct (Qeq_bool _ 0) eqn:Heq; [|done].
  by apply Qeq_bool_iff in Heq.
Qed.

(** With a refill rate of zero and too few tokens the division raises. *)
Lemma get_retry_after_zero_rate rl request cost created b :
  _buckets rl !! _get_client_key request = Some b ->
  (tokens b < inject_Z cost)%Q ->
  (_refill_rate rl == 0)%Q ->
  get_retry_after _get_client_key rl request cost created
  = Raised rl ZeroDivisionError.
Proof.
  intros E Hlt Hr. unfold get_retry_after.
  rewrite (bucket_of_present _ _ _ _ E).
  destruct (Qle_bool _ 0) eqn:Hle.
  { apply Qle_bool_iff in Hle. lra. }
  apply Qeq_bool_iff in Hr. by rewrite Hr.
Qed.

(** *** The lock *)

Implicit Types (a : call Request) (sh : shared) (ths : list (call Request * pc)).

Lemma store_store rl key b b' : store (store rl key b) key b' = store rl key b'.
Proof. unfold store. cbn. by rewrite insert_insert_eq. Qed.

(** Refill then debit, as two steps, is [check]. *)
Lemma debit_after_refill rl a :
  debit_step _get_client_key (refill_step _get_client_key rl a) a
  = Some (check_call _get_client_key rl a).
Proof.
  unfold debit_step, refill_step, check_call, check.
  destruct (bucket_of rl _ _) as [rl1 b]. cbn [store _buckets].
  rewrite lookup_insert_eq. cbn [_refill tokens last_refill].
  destruct (Qle_bool _ _); [|done]. by rewrite store_store.
Qed.

(** A thread that runs alone goes through [check] in four steps. *)
Lemma alone_is_check rl a ths i :
  ths !! i = Some (a, AtAcquire) ->
  interleave _get_client_key (mk_shared rl false, ths) [i; i; i; i]
  = (mk_shared (check_call _get_client_key rl a).1 false,
     <[i:=(a, AtReturn (check_call _get_client_key rl a).2)]> ths).
Proof.
  intros Hi. pose proof (lookup_lt_Some _ _ _ Hi) as Hlt.
  unfold interleave. cbn [fold_left].
  unfold schedule_step at 4. cbn [fst snd]. rewrite Hi. cbn.
  unfold schedule_step at 3. cbn [fst snd].
  rewrite list_lookup_insert_eq by done. cbn.
  unfold schedule_step at 2. cbn [fst snd].
  rewrite list_lookup_insert_eq by (by rewrite length_insert). cbn.
  rewrite debit_after_refill. destruct (check_call _ rl a) as [rl' ok]. cbn.
  unfold schedule_step. cbn [fst snd].
  rewrite list_lookup_insert_eq by (by rewrite !length_insert). cbn.
  by rewrite !list_insert_insert_eq.
Qed.







End Facts.

Local Open Scope string_scope.
Local Open Scope list_scope.

(** Two threads of the same client on an empty bucket that one token has
    flowed back into: thread 1 gets the lock first, thread 0 has to wait.
    The outcome is that of thread 1's [check] followed by thread 0's. *)
Example interleaved_checks :
  let rl := mk 10 (1 # 2) 60 {["c" := mk_bucket 0 0]} in
  let ths0 := [(mk_call "c" 1 0 2, AtAcquire); (mk_call "c" 1 0 2, AtAcquire)] in
  interleave key_of (mk_shared rl false, ths0) [1; 0; 1; 0; 1; 1; 0; 0; 0; 0]%nat
  = (mk_shared (serial key_of (rl, ths0) [1; 0]%nat).1 false,
     [(mk_call "c" 1 0 2, AtReturn false); (mk_call "c" 1 0 2, AtReturn true)]).
Proof. vm_compute. reflexivity. Qed.


(** C4.  The limiter of the chat endpoints ([max_tokens = 10],
    [refill_rate = 0.5]) after ten calls of [check] by one client at time 0:
    the bucket is empty.  [get_retry_after] never reads the clock and never
    calls [_refill]: for a cost of 1 it answers 2 seconds and leaves the
    bucket as it was, at whatever time it is called.  At time 10 the
    refilled bucket holds 5 tokens, which [get_remaining] (which does
    refill) reports, and the delay computed after refilling is 0. *)
Theorem get_retry_after_skips_refill :
  let rl := Nat.iter 10 (fun rl => (check key_of rl "c" 1 0 0).1)
                     (init 10 (1 # 2) 60) in
  exists b delay,
    _buckets rl !! "c" = Some b
    /\ (tokens b == 0)%Q
    /\ last_refill b = 0%Q
    /\ get_retry_after key_of rl "c" 1 10 = Returned rl delay
    /\ (delay == 2)%Q
    /\ (retry_after_refilled rl b 1 10 == 0)%Q
    /\ (get_remaining key_of rl "c" 10 10).2 = 5.
Proof.
  eexists _, _. split_and!; [vm_compute; reflexivity | ..]; by vm_compute.
Qed.

(** C5.  [RateLimiter(max_tokens=1, refill_rate=0)]: the first [check]
    succeeds, the second one fails, and [get_retry_after] then divides the
    missing token by the refill rate 0 and raises [ZeroDivisionError]. *)
Theorem get_retry_after_divides_by_zero :
  let rl0 := init 1 0 60 in
  let rl1 := fst (check key_of rl0 "c" 1 0 0) in
  let rl2 := fst (check key_of rl1 "c" 1 0 0) in
  snd (check key_of rl0 "c" 1 0 0) = true
  /\ snd (check key_of rl1 "c" 1 0 0) = false
  /\ get_retry_after key_of rl2 "c" 1 0 = Raised rl2 ZeroDivisionError.
Proof. split_and!; reflexivity. Qed.

End RateLimiterFacts.

(** ** The inference queue *)

Module InferenceQueueFacts.
Import InferenceQueue.
Section Facts.

Context {Any : Type}.
Implicit Types (st : state Any) (item it : QueueItem Any) (r : completion Any).
Implicit Types (h : gmap nat (fstate Any)) (q : AsyncQueue Any).

(** *** Futures *)

Lemma done_false h f : done h f = false <-> future_state h f = Pending.
Proof. unfold done. destruct (future_state h f); split; congruence. Qed.


Lemma future_state_lookup h f s : h !! f = Some s -> future_state h f = s.
Proof. unfold future_state. by intros ->. Qed.

Lemma resolution_not_pending r : resolution r <> Pending.
Proof. by destruct r. Qed.

Lemma await_resolution h f r :
  future_state h f = resolution r -> await_future h f = Some r.
Proof. unfold await_future. intros ->. by destruct r. Qed.

Lemma fresh_future h : fresh (dom h) ∉ dom h.
Proof. apply is_fresh. Qed.

(** *** One item through the loop body *)

(** Work that returns, or raises an [Exception], on a queue whose count of
    unfinished tasks covers the item: the body ends normally.  The future
    is resolved with the work's completion if it was pending and is left as
    it is otherwise; an attempt on a resolved future is counted as an
    error. *)
Lemma process_spec st item r :
  catchable r = true ->
  1 <= unfinished_tasks (_queue (self st)) ->
  exists st',
    process st item r = Returned st' tt
    /\ futures st'
       = (if done (futures st) (future item) then futures st
          else <[future item:=resolution r]> (futures st))
    /\ items (_queue (self st')) = items (_queue (self st))
    /\ maxsize (_queue (self st')) = maxsize (_queue (self st))
    /\ unfinished_tasks (_queue (self st'))
       = unfinished_tasks (_queue (self st)) - 1
    /\ _running (self st') = _running (self st)
    /\ _max_queue_size (self st') = _max_queue_size (self st)
    /\ _active_tasks (self st') = _active_tasks (self st)
    /\ _total_processed (self st')
       = _total_processed (self st)
         + (if done (futures st) (future item) then 0
            else match r with Returns _ => 1 | Raises _ => 0 end)
    /\ _total_errors (self st')
       = _total_errors (self st)
         + (if done (futures st) (future item) then 1
            else match r with Returns _ => 0 | Raises _ => 1 end).
Proof.
  intros Hr Hun. unfold process, try_block, except_block, finally_block,
    set_result, set_exception, task_done.
  destruct st as [s h]. cbn [self futures] in *.
  destruct (Z.leb_spec (unfinished_tasks (_queue s)) 0) as [|_]; [lia|].
  destruct r as [v|e]; cbn [catchable] in Hr;
    destruct (done h (future item)) eqn:Hd; cbn; rewrite ?Hr, ?Hd; cbn;
    (destruct (Z.leb_spec (unfinished_tasks (_queue s)) 0) as [|_]; [lia|]);
    eexists; (split; [reflexivity|]); cbn; split_and!; try done; lia.
Qed.


(** *** Taking an item, and the loop *)

Lemma take_cons st item rest :
  items (_queue (self st)) = item :: rest ->
  take st
  = Some (item,
          mk_state (with_queue (self st)
                      (mk_queue rest (maxsize (_queue (self st)))
                                (unfinished_tasks (_queue (self st)))))
                   (futures st)).
Proof. intros E. unfold take, get_nowait. by rewrite E. Qed.

Lemma take_nil st : items (_queue (self st)) = [] -> take st = None.
Proof. intros E. unfold take, get_nowait. by rewrite E. Qed.

(** One turn of the loop on a healthy state whose first item is catchable. *)
Lemma turn_spec st item rest :
  healthy st ->
  items (_queue (self st)) = item :: rest ->
  catchable (coroutine_factory item tt) = true ->
  exists st0 st1,
    take st = Some (item, st0)
    /\ futures st0 = futures st
    /\ process st0 item (coroutine_factory item tt) = Returned st1 tt
    /\ futures st1 = <[future item:=resolution (coroutine_factory item tt)]> (futures st)
    /\ items (_queue (self st1)) = rest
    /\ healthy st1
    /\ _max_queue_size (self st1) = _max_queue_size (self st)
    /\ maxsize (_queue (self st1)) = maxsize (_queue (self st))
    /\ _total_processed (self st1)
       = _total_processed (self st)
         + match coroutine_factory item tt with Returns _ => 1 | Raises _ => 0 end
    /\ _total_errors (self st1)
       = _total_errors (self st)
         + match coroutine_factory item tt with Returns _ => 0 | Raises _ => 1 end.
Proof.
  intros [Hrun Hcnt Hnd Hpend] Eq Hc.
  rewrite Eq in Hcnt, Hnd, Hpend. cbn [map length] in *.
  apply NoDup_cons in Hnd as [Hf Hnd].
  apply Forall_cons in Hpend as [Hp Hpend].
  set (st0 := mk_state (with_queue (self st)
                          (mk_queue rest (maxsize (_queue (self st)))
                                    (unfinished_tasks (_queue (self st)))))
                       (futures st)).
  destruct (process_spec st0 item (coroutine_factory item tt) Hc)
    as (st1 & Hproc & Hfut & Hit & Hmx & Hun & Hr & Hmq & _ & Htp & Hte).
  { cbn. lia. }
  exists st0, st1. subst st0.
  cbn [self futures with_queue _queue items maxsize unfinished_tasks _running
       _max_queue_size _total_processed _total_errors] in *.
  assert (Hnot : done (futures st) (future item) = false).
  { apply done_false. by apply future_state_lookup. }
  rewrite Hnot in Hfut, Htp, Hte.
  split_and!; try done.
  - by apply take_cons.
  - split.
    + by rewrite Hr.
    + rewrite Hit, Hun. lia.
    + by rewrite Hit.
    + rewrite Hit, Hfut. rewrite Forall_forall in Hpend |- *.
      intros it Hin. rewrite lookup_insert_ne; [by apply Hpend|].
      intros Heq. apply Hf. rewrite Heq. apply list_elem_of_fmap. eauto.
Qed.

(** A healthy worker with enough fuel works the queue off and parks: every
    queued item's future holds the completion of that item's own work,
    and no other future is touched. *)
Lemma worker_drains : forall its st fuel,
  healthy st ->
  items (_queue (self st)) = its ->
  Forall (fun it => catchable (coroutine_factory it tt) = true) its ->
  (length its < fuel)%nat ->
  exists st',
    _worker fuel st = Returned st' Parked
    /\ items (_queue (self st')) = []
    /\ healthy st'
    /\ (forall it, it ∈ its ->
          futures st' !! future it = Some (resolution (coroutine_factory it tt)))
    /\ (forall f, f ∉ map future its -> futures st' !! f = futures st !! f)
    /\ _total_errors (self st') - _total_errors (self st)
       = Z.of_nat (length (List.filter
           (fun it => match coroutine_factory it tt with
                      | Raises _ => true | Returns _ => false end) its))
    /\ _total_processed (self st') - _total_processed (self st)
       = Z.of_nat (length (List.filter
           (fun it => match coroutine_factory it tt with
                      | Raises _ => false | Returns _ => true end) its)).
Proof.
  induction its as [|item rest IH]; intros st fuel Hh Eq Hc Hfuel.
  - destruct fuel as [|fuel]; [simpl in Hfuel; lia|].
    exists st. cbn [_worker]. rewrite (healthy_running _ Hh), (take_nil _ Eq).
    split_and!; [done | done | done | | done | cbn; lia | cbn; lia].
    intros it Hin. by apply elem_of_nil in Hin.
  - destruct fuel as [|fuel]; [simpl in Hfuel; lia|].
    apply Forall_cons in Hc as [Hc1 Hc].
    destruct (turn_spec st item rest Hh Eq Hc1)
      as (st0 & st1 & Htake & _ & Hproc & Hfut & Hit & Hh1 & _ & _ & Htp & Hte).
    destruct (IH st1 fuel Hh1 Hit Hc) as
      (st' & Hw & Hempty & Hh' & Hown & Hother & He & Hp);
      [simpl in Hfuel; lia|].
    exists st'. cbn [_worker]. rewrite (healthy_running _ Hh), Htake, Hproc.
    assert (Hf : future item ∉ map future rest).
    { pose proof (healthy_distinct _ Hh) as Hnd. rewrite Eq in Hnd.
      cbn in Hnd. by apply NoDup_cons in Hnd as [? _]. }
    split_and!; try done.
    + intros it [->|Hin]%elem_of_cons; [|by apply Hown].
      rewrite Hother, Hfut; [|done]. by rewrite lookup_insert_eq.
    + intros f Hnf. cbn in Hnf. apply not_elem_of_cons in Hnf as [Hne Hnf].
      rewrite Hother, Hfut; [|done]. by rewrite lookup_insert_ne.
    + cbn [List.filter]. destruct (coroutine_factory item tt); cbn [length]; lia.
    + cbn [List.filter]. destruct (coroutine_factory item tt); cbn [length]; lia.
Qed.

(** *** Submission *)

Lemma submit_accepted st task_id factory :
  full (_queue (self st)) = false ->
  let f := fresh (dom (futures st)) in
  submit st task_id factory
  = Returned
      (mk_state
         (with_queue (self st)
            (mk_queue (items (_queue (self st)) ++ [mk_item task_id factory f])
                      (maxsize (_queue (self st)))
                      (unfinished_tasks (_queue (self st)) + 1)))
         (<[f:=Pending]> (futures st)))
      f.
Proof. intros Hfull f. unfold submit, create_future, put_nowait. by rewrite Hfull. Qed.

Lemma submit_rejected st task_id factory :
  full (_queue (self st)) = true ->
  submit st task_id factory
  = Raised (mk_state (self st) (<[fresh (dom (futures st)):=Pending]> (futures st)))
           QueueFull.
Proof. intros Hfull. unfold submit, create_future, put_nowait. by rewrite Hfull. Qed.

Lemma empty_queue_not_full q : items q = [] -> full q = false.
Proof.
  intros E. unfold full, qsize. rewrite E. cbn [length].
  destruct (Z.leb_spec (maxsize q) 0); [done|].
  rewrite Z.geb_leb. apply Z.leb_gt. lia.
Qed.

Lemma submit_healthy st task_id factory st' f :
  healthy st ->
  submit st task_id factory = Returned st' f ->
  healthy st'
  /\ f = fresh (dom (futures st))
  /\ futures st' = <[f:=Pending]> (futures st)
  /\ items (_queue (self st'))
     = items (_queue (self st)) ++ [mk_item task_id factory f].
Proof.
  intros [Hrun Hcnt Hnd Hpend] Hs.
  destruct (full (_queue (self st))) eqn:Hfull.
  { by rewrite submit_rejected in Hs. }
  rewrite submit_accepted in Hs by done. injection Hs as <- <-.
  split_and!; try done. split; cbn.
  - done.
  - rewrite length_app. cbn. lia.
  - rewrite map_app. cbn. apply NoDup_app. split_and!; [done | | apply NoDup_singleton].
    intros x (it & -> & Hin)%list_elem_of_fmap Hx%list_elem_of_singleton.
    rewrite Forall_forall in Hpend. specialize (Hpend it Hin).
    apply (fresh_future (futures st)). rewrite <- Hx.
    apply elem_of_dom. eauto.
  - apply Forall_app. split.
    + rewrite Forall_forall in Hpend |- *. intros it Hin.
      rewrite lookup_insert_ne; [by apply Hpend|]. intros Heq.
      apply (fresh_future (futures st)). rewrite Heq.
      apply elem_of_dom. rewrite (Hpend it Hin). eauto.
    + constructor; [|constructor]. cbn. by rewrite lookup_insert_eq.
Qed.

(** *** Backpressure *)

(** C2, amended.  For an [InferenceQueue] built with [max_queue_size >= 1]:
    when the internal queue holds [max_queue_size] pending items, [submit]
    raises [QueueFull] before it reaches its suspension point, so without
    waiting, and the queue object is left exactly as it was, pending items
    and counters.  The only trace is the future that [submit] created
    first; no item refers to it. *)
Theorem submit_rejects_when_full st task_id factory :
  maxsize (_queue (self st)) = _max_queue_size (self st) ->
  1 <= _max_queue_size (self st) ->
  qsize (_queue (self st)) = _max_queue_size (self st) ->
  submit st task_id factory
  = Raised (mk_state (self st) (<[fresh (dom (futures st)):=Pending]> (futures st)))
           QueueFull
  /\ (forall f s, futures st !! f = Some s ->
                  <[fresh (dom (futures st)):=Pending]> (futures st) !! f = Some s).
Proof.
  intros Hmax Hpos Hsize. split.
  - apply submit_rejected. unfold full. rewrite Hmax, Hsize.
    destruct (Z.leb_spec (_max_queue_size (self st)) 0); [lia|].
    rewrite Z.geb_leb. apply Z.leb_le. lia.
  - intros f s Hf. rewrite lookup_insert_ne; [done|]. intros <-.
    apply (fresh_future (futures st)). apply elem_of_dom. eauto.
Qed.

(** *** Resolution of the result slot *)

(** C8.  When the future of an item is already resolved (or cancelled) at
    the time the worker comes to resolve it, nothing is overwritten and
    nothing escapes the loop body, whether the work returned or raised an
    [Exception]: [set_result] and [set_exception] refuse a resolved future
    with [InvalidStateError]; on the error path the handler checks
    [done()] first, on the success path the [InvalidStateError] of
    [set_result] is caught by the same handler.  The body returns, the
    store of futures is the one it started with, and the attempt is counted
    in [total_errors], not in [total_processed]. *)
Theorem resolved_slot_is_left_alone st item r :
  done (futures st) (future item) = true ->
  catchable r = true ->
  1 <= unfinished_tasks (_queue (self st)) ->
  (forall v, set_result (futures st) (future item) v = inr InvalidStateError)
  /\ (forall e, set_exception (futures st) (future item) e = inr InvalidStateError)
  /\ exists st',
       process st item r = Returned st' tt
       /\ futures st' = futures st
       /\ _running (self st') = _running (self st)
       /\ _total_errors (self st') = _total_errors (self st) + 1
       /\ _total_processed (self st') = _total_processed (self st).
Proof.
  intros Hd Hr Hun. split_and!.
  - intros v. unfold set_result. by rewrite Hd.
  - intros e. unfold set_exception. by rewrite Hd.
  - destruct (process_spec st item r Hr Hun)
      as (st' & Hp & Hf & _ & _ & _ & Hrun & _ & _ & Htp & Hte).
    rewrite Hd in Hf, Htp, Hte. exists st'. split_and!; [done..|lia].
Qed.

(** *** Failure of the submitted work *)


End Facts.

(** *** Concrete runs *)

Local Open Scope string_scope.
Local Open Scope list_scope.

(** Two queued items: the work of the first raises, the work of the second
    returns 1.  The worker stores the error in future 0, the result in
    future 1, counts one error and one processed item, and parks. *)
Example second_item_completes :
  _worker 3
    (mk_state
       (mk (mk_queue [mk_item "t0" (fun _ => Raises (WorkError "boom")) 0;
                      mk_item "t1" (fun _ => Returns 1%nat) 1] 2 2)
           1 2 0 0 0 true)
       {[0%nat := Pending; 1%nat := Pending]})
  = Returned
      (mk_state (mk (mk_queue [] 2 0) 1 2 0 1 1 true)
                {[0%nat := Finished_exception (WorkError "boom");
                  1%nat := Finished_result 1%nat]})
      Parked.
Proof. reflexivity. Qed.

Lemma submit_rejects_when_full_witness :
  let w := fun _ : unit => Returns 1%nat in
  let st := mk_state (mk (mk_queue [mk_item "t0" w 0; mk_item "t1" w 1] 2 2)
                         1 2 0 0 0 true)
                     {[0%nat := Pending; 1%nat := Pending]} in
  submit st "t2" w
  = Raised (mk_state (self st) (<[fresh (dom (futures st)):=Pending]> (futures st)))
           QueueFull
  /\ (forall f s, futures st !! f = Some s ->
                  <[fresh (dom (futures st)):=Pending]> (futures st) !! f = Some s).
Proof.
  apply (submit_rejects_when_full
           (mk_state (mk (mk_queue [mk_item "t0" (fun _ => Returns 1%nat) 0;
                                    mk_item "t1" (fun _ => Returns 1%nat) 1] 2 2)
                         1 2 0 0 0 true)
                     {[0%nat := Pending; 1%nat := Pending]})).
  - reflexivity.
  - simpl. lia.
  - reflexivity.
Defined.

(** C2, as stated, fails for [InferenceQueue(max_queue_size=0)]:
    [asyncio.Queue(maxsize=0)] is unbounded, so with the queue holding
    [max_queue_size = 0] pending items [submit] enqueues the item and goes on
    to await its future. *)
Lemma submit_accepts_at_capacity_zero :
  let w := fun _ : unit => Returns 1%nat in
  let st := start (mk_state (init 2 0) ∅) in
  qsize (_queue (self st)) = _max_queue_size (self st)
  /\ submit st "t" w
     = Returned (mk_state (mk (mk_queue [mk_item "t" w 0] 0 1) 2 0 0 0 0 true)
                          {[0%nat := Pending]})
                0%nat.
Proof. split; reflexivity. Qed.

Lemma resolved_slot_is_left_alone_witness :
  let item := mk_item "t0" (fun _ => Returns 7%nat) 0 in
  let st := mk_state (mk (mk_queue [] 2 1) 1 2 0 0 0 true)
                     {[0%nat := @Cancelled nat]} in
  (forall v, set_result (futures st) (future item) v = inr InvalidStateError)
  /\ (forall e, set_exception (futures st) (future item) e = inr InvalidStateError)
  /\ exists st',
       process st item (Returns 7%nat) = Returned st' tt
       /\ futures st' = futures st
       /\ _running (self st') = _running (self st)
       /\ _total_errors (self st') = _total_errors (self st) + 1
       /\ _total_processed (self st') = _total_processed (self st).
Proof.
  apply (resolved_slot_is_left_alone
           (mk_state (mk (mk_queue [] 2 1) 1 2 0 0 0 true)
                     {[0%nat := @Cancelled nat]})
           (mk_item "t0" (fun _ => Returns 7%nat) 0) (Returns 7%nat)).
  - reflexivity.
  - reflexivity.
  - simpl. lia.
Defined.


End InferenceQueueFacts.

(** ** More on the cache *)

Module TTLCacheMoreFacts.
Import TTLCache TTLCacheRuns TTLCacheFacts.
Section Facts.

Context {Any : Type}.
Implicit Types (d : odict Any) (c : t Any) (e : entry Any) (key k : string).
Implicit Types (o : op Any) (ops : list (op Any)).

Lemma od_lookup_app_absent key d1 d2 :
  key ∉ keys d1 -> od_lookup key (d1 ++ d2) = od_lookup key d2.
Proof.
  induction d1 as [|[k e] d1 IH]; simpl; [done|].
  rewrite not_elem_of_cons. intros [Hne Hd1].
  destruct (String.eqb_spec k key) as [->|_]; [done | by apply IH].
Qed.

Lemma od_lookup_delete_ne key k d :
  k <> key -> od_lookup k (od_delete key d) = od_lookup k d.
Proof.
  intros Hne. induction d as [|[k0 e] d IH]; simpl; [done|].
  destruct (String.eqb_spec k0 key) as [->|Hk0]; simpl.
  - destruct (String.eqb_spec key k) as [->|_]; done.
  - by rewrite IH.
Qed.

Lemma od_lookup_setitem_ne key k e d :
  k <> key -> od_lookup k (od_setitem key e d) = od_lookup k d.
Proof.
  intros Hne. induction d as [|[k0 e0] d IH]; simpl.
  - destruct (String.eqb_spec key k) as [->|_]; done.
  - destruct (String.eqb_spec k0 key) as [->|Hk0]; simpl.
    + destruct (String.eqb_spec key k) as [->|_]; done.
    + by rewrite IH.
Qed.

Lemma od_lookup_move_to_end key d e :
  NoDup (keys d) -> od_lookup key d = Some e ->
  od_lookup key (od_move_to_end key d) = Some e.
Proof.
  intros Hnd E. unfold od_move_to_end. rewrite E.
  destruct (od_lookup_split _ _ _ E) as (d1 & d2 & -> & Hd1 & ->).
  unfold keys in Hnd. rewrite map_app in Hnd. simpl in Hnd.
  apply NoDup_app in Hnd as (_ & _ & [Hd2 _]%NoDup_cons).
  rewrite od_lookup_app_absent.
  - simpl. by rewrite String.eqb_refl.
  - unfold keys. rewrite map_app, not_elem_of_app. done.
Qed.

(** Deleting keys that do not occur at the head leaves the head in place. *)
Lemma fold_delete_cons ks k e d :
  k ∉ ks ->
  fold_left (fun d k => od_delete k d) ks ((k, e) :: d)
  = (k, e) :: fold_left (fun d k => od_delete k d) ks d.
Proof.
  revert d. induction ks as [|k' ks IH]; intros d Hk; simpl; [done|].
  apply not_elem_of_cons in Hk as [Hne Hk].
  destruct (String.eqb_spec k k') as [->|_]; [done | by apply IH].
Qed.

(** The loop of [cleanup_expired] leaves exactly the entries that have not
    expired, in their order. *)
Lemma fold_delete_expired ttl now d :
  NoDup (keys d) ->
  fold_left (fun d k => od_delete k d)
            (keys (List.filter (fun kv => expired ttl now (snd kv)) d)) d
  = live ttl now d.
Proof.
  unfold live. induction d as [|[k e] d IH]; intros Hnd; [done|].
  cbn [keys map] in Hnd. apply NoDup_cons in Hnd as [Hk Hnd].
  cbn [List.filter snd]. destruct (expired ttl now e) eqn:Hex; cbn [negb].
  - cbn [keys map fold_left fst od_delete]. rewrite String.eqb_refl. by apply IH.
  - rewrite fold_delete_cons; [by rewrite IH|].
    intros Hin. apply Hk. unfold keys in *.
    apply list_elem_of_fmap in Hin as (kv & -> & Hkv).
    apply list_elem_of_fmap. exists kv. split; [done|].
    apply list_elem_of_In, filter_In in Hkv as [Hkv _].
    by apply list_elem_of_In.
Qed.

Lemma filter_split_length {A} (f : A -> bool) (l : list A) :
  (length (List.filter f l) + length (List.filter (fun x => negb (f x)) l)
   = length l)%nat.
Proof.
  induction l as [|x l IH]; simpl; [done|].
  destruct (f x); simpl; lia.
Qed.

(** X1.  On a cache that stores no key twice, [cleanup_expired] at [now]
    keeps exactly the entries whose age is at most the TTL, in their order,
    and returns the number of entries it removed; hits and misses are not
    touched.  Right after the sweep every stored key is a hit for a [get] at
    [now]. *)
Theorem cleanup_expired_sweeps c now :
  NoDup (keys (_cache c)) ->
  let kept := live (_ttl_seconds c) now (_cache c) in
  cleanup_expired c now
  = (mk kept (_max_size c) (_ttl_seconds c) (_hits c) (_misses c),
     Z.of_nat (length (_cache c)) - Z.of_nat (length kept))
  /\ (forall kv, kv ∈ kept <->
                 kv ∈ _cache c
                 /\ (now - timestamp kv.2 <= inject_Z (_ttl_seconds c))%Q)
  /\ (forall key e,
        od_lookup key kept = Some e ->
        get (cleanup_expired c now).1 key now
        = (mk (od_move_to_end key kept) (_max_size c) (_ttl_seconds c)
              (_hits c + 1) (_misses c),
           Some (value e))).
Proof.
  intros Hnd kept.
  assert (Hkept : forall kv, kv ∈ kept <->
            kv ∈ _cache c
            /\ (now - timestamp kv.2 <= inject_Z (_ttl_seconds c))%Q).
  { intros kv. unfold kept, live.
    rewrite !list_elem_of_In, filter_In, negb_true_iff.
    unfold expired. by rewrite Qgtb_false. }
  assert (Hrun : cleanup_expired c now
                 = (mk kept (_max_size c) (_ttl_seconds c) (_hits c) (_misses c),
                    Z.of_nat (length (_cache c)) - Z.of_nat (length kept))).
  { unfold cleanup_expired. rewrite fold_delete_expired by done.
    fold kept. f_equal. unfold keys. rewrite length_map.
    pose proof (filter_split_length
                  (fun kv => expired (_ttl_seconds c) now (snd kv)) (_cache c)).
    unfold kept, live. lia. }
  split_and!; [done | done |].
  intros key e E. rewrite Hrun. cbn [fst].
  apply (get_hit (mk kept (_max_size c) (_ttl_seconds c) (_hits c) (_misses c))
                 key now e E).
  cbn. apply od_lookup_elem in E. by apply Hkept in E as [_ ?].
Qed.

(** X2.  Counting.  In any run on a cache of capacity at least 1 every [get]
    counts exactly once, as a hit or as a miss, and nothing else counts:
    [set], [invalidate], [clear] and [cleanup_expired] leave both counters
    alone, so [hits + misses] grows by the number of [get] calls and neither
    counter ever goes down. *)
Theorem every_get_counts_once c ops :
  1 <= _max_size c ->
  exists c',
    run c ops = Returned c' tt
    /\ _hits c' + _misses c' = _hits c + _misses c + gets ops
    /\ _hits c <= _hits c'
    /\ _misses c <= _misses c'.
Proof.
  revert c. induction ops as [|o ops IH]; intros c Hpos.
  { exists c. unfold gets. cbn. split_and!; [done | lia..]. }
  assert (Hstep : exists c1,
             step c o = Returned c1 tt
             /\ _max_size c1 = _max_size c
             /\ _hits c1 + _misses c1 = _hits c + _misses c + gets [o]
             /\ _hits c <= _hits c1 /\ _misses c <= _misses c1).
  { destruct o as [key now|key v now|key| |now]; unfold gets; cbn.
    - eexists. split; [done|]. unfold get.
      destruct (od_lookup key (_cache c)) as [e|]; [destruct (expired _ _ _)|];
        cbn; lia.
    - destruct (evict_positive (_max_size c) (_cache c) Hpos)
        as (d' & gone & Hev & _). unfold set. rewrite Hev.
      eexists. split; [done|]. cbn. lia.
    - eexists. split; [done|]. unfold invalidate.
      destruct (od_lookup key (_cache c)); cbn; lia.
    - eexists. split; [done|]. cbn. lia.
    - eexists. split; [done|]. cbn. lia. }
  destruct Hstep as (c1 & Hs & Hm & Hsum & Hh & Hmi).
  destruct (IH c1) as (c' & Hrun & Hsum' & Hh' & Hmi'); [lia|].
  exists c'. cbn [run]. rewrite Hs, Hrun.
  assert (gets (o :: ops) = gets [o] + gets ops).
  { unfold gets. cbn. destruct o; cbn [length]; lia. }
  split_and!; [done | lia..].
Qed.

(** X3.  Overwriting at capacity.  When the cache is full, [set] evicts the
    first entry before it looks at the key, also when the key is already
    stored.  If the key is the first entry itself, it comes back at the
    most-recent end.  If it is another stored key, the first entry is lost
    although nothing is added: the cache is left with [max_size - 1]
    entries, and the key keeps its old position with its new value. *)
Theorem set_of_stored_key_at_capacity_evicts c key v now k0 e0 rest :
  NoDup (keys (_cache c)) ->
  _cache c = (k0, e0) :: rest ->
  Z.of_nat (length (_cache c)) = _max_size c ->
  key ∈ keys (_cache c) ->
  exists c',
    set c key v now = Returned c' tt
    /\ od_lookup key (_cache c') = Some (mk_entry v now)
    /\ (key = k0 -> _cache c' = rest ++ [(key, mk_entry v now)])
    /\ (key <> k0 ->
          keys (_cache c') = keys rest
          /\ od_lookup k0 (_cache c') = None
          /\ Z.of_nat (length (_cache c')) = _max_size c - 1).
Proof.
  intros Hnd Hc Hfull Hkey. rewrite Hc in Hnd, Hfull, Hkey.
  cbn [keys map fst] in Hnd, Hkey. apply NoDup_cons in Hnd as [Hk0 Hnd].
  unfold set. rewrite Hc, evict_full by done.
  eexists. split; [done|]. cbn [_cache]. split; [apply od_lookup_setitem|].
  split.
  - intros ->. by apply od_setitem_absent.
  - intros Hne. apply elem_of_cons in Hkey as [?|Hkey]; [done|].
    rewrite od_setitem_keys, decide_True by done. split_and!; [done | |].
    + rewrite od_lookup_setitem_ne by done. by apply od_lookup_None.
    + assert (length (od_setitem key (mk_entry v now) rest) = length rest) as ->.
      { rewrite <- (length_map fst). fold (keys (od_setitem key (mk_entry v now) rest)).
        rewrite od_setitem_keys, decide_True by done. unfold keys.
        by rewrite length_map. }
      cbn [length] in Hfull. lia.
Qed.

(** X4.  Overwriting with room to spare.  Below capacity, [set] on a stored
    key replaces its value and timestamp where the key stands: the order of
    the keys, which is the eviction order, does not change (unlike a [get]
    hit, an overwrite does not make the key most recently used), and the
    other entries are as they were. *)
Theorem set_of_stored_key_keeps_position c key v now :
  Z.of_nat (length (_cache c)) < _max_size c ->
  key ∈ keys (_cache c) ->
  exists c',
    set c key v now = Returned c' tt
    /\ keys (_cache c') = keys (_cache c)
    /\ od_lookup key (_cache c') = Some (mk_entry v now)
    /\ (forall k, k <> key -> od_lookup k (_cache c') = od_lookup k (_cache c)).
Proof.
  intros Hroom Hkey. unfold set. rewrite evict_room by done.
  eexists. split; [done|]. cbn [_cache]. split_and!.
  - by rewrite od_setitem_keys, decide_True.
  - apply od_lookup_setitem.
  - intros k Hne. by apply od_lookup_setitem_ne.
Qed.

(** X5.  Reading does not extend an entry's life.  A [get] hit moves the
    key to the most-recent end but leaves its timestamp alone, so the TTL
    runs from the [set]: after a hit at [t1], a [get] at [t2] later than the
    timestamp plus the TTL still removes the entry and returns [None]. *)
Theorem hit_does_not_extend_life c key e t1 t2 :
  NoDup (keys (_cache c)) ->
  od_lookup key (_cache c) = Some e ->
  (t1 - timestamp e <= inject_Z (_ttl_seconds c))%Q ->
  (inject_Z (_ttl_seconds c) < t2 - timestamp e)%Q ->
  let c1 := (get c key t1).1 in
  (get c key t1).2 = Some (value e)
  /\ od_lookup key (_cache c1) = Some e
  /\ get c1 key t2
     = (mk (od_delete key (_cache c1)) (_max_size c) (_ttl_seconds c)
           (_hits c + 1) (_misses c + 1),
        None)
  /\ od_lookup key (od_delete key (_cache c1)) = None.
Proof.
  intros Hnd E H1 H2 c1. subst c1. rewrite (get_hit c key t1 e E H1). cbn [fst snd].
  split; [done|]. cbn [_cache].
  pose proof (od_lookup_move_to_end key _ e Hnd E) as E'.
  split; [done|]. split.
  - by rewrite (get_stale (mk (od_move_to_end key (_cache c)) (_max_size c)
                              (_ttl_seconds c) (_hits c + 1) (_misses c))
                          key t2 e E').
  - apply od_delete_gone. by apply od_move_to_end_NoDup.
Qed.

Lemma invalidate_absent c key :
  od_lookup key (_cache c) = None -> invalidate c key = (c, false).
Proof. intros E. unfold invalidate. by rewrite E. Qed.

Lemma invalidate_present c key e :
  od_lookup key (_cache c) = Some e ->
  invalidate c key
  = (mk (od_delete key (_cache c)) (_max_size c) (_ttl_seconds c)
        (_hits c) (_misses c), true).
Proof. intros E. unfold invalidate. by rewrite E. Qed.

(** X6.  [invalidate] answers whether the key was stored, removes that key
    and no other, and counts nothing; a second [invalidate] of the same key
    answers [False] and changes nothing. *)
Theorem invalidate_removes_one_key c key :
  NoDup (keys (_cache c)) ->
  let c1 := (invalidate c key).1 in
  ((invalidate c key).2 = true <-> key ∈ keys (_cache c))
  /\ od_lookup key (_cache c1) = None
  /\ (forall k, k <> key -> od_lookup k (_cache c1) = od_lookup k (_cache c))
  /\ _hits c1 = _hits c /\ _misses c1 = _misses c
  /\ invalidate c1 key = (c1, false).
Proof.
  intros Hnd c1. subst c1.
  destruct (od_lookup key (_cache c)) as [e|] eqn:E.
  - rewrite (invalidate_present c key e E). cbn [fst snd _cache _hits _misses].
    pose proof (od_delete_gone key _ Hnd) as Hgone.
    split_and!; try done.
    + split; [intros _; by eapply od_lookup_Some_elem | done].
    + intros k Hne. by apply od_lookup_delete_ne.
    + by apply invalidate_absent.
  - rewrite (invalidate_absent c key E). cbn [fst snd].
    split_and!; try done.
    + split; [done|]. intros Hin. apply od_lookup_None in E. done.
    + by apply invalidate_absent.
Qed.

End Facts.

Local Open Scope string_scope.
Local Open Scope list_scope.

Lemma cleanup_expired_sweeps_witness :
  let c := mk [("a", mk_entry 1%nat 0%Q); ("b", mk_entry 2%nat 50%Q);
               ("c", mk_entry 3%nat 10%Q)] 4 60 0 0 in
  let kept := live (_ttl_seconds c) 100 (_cache c) in
  cleanup_expired c 100
  = (mk kept (_max_size c) (_ttl_seconds c) (_hits c) (_misses c),
     Z.of_nat (length (_cache c)) - Z.of_nat (length kept))
  /\ (forall kv, kv ∈ kept <->
                 kv ∈ _cache c
                 /\ (100 - timestamp kv.2 <= inject_Z (_ttl_seconds c))%Q)
  /\ (forall key e,
        od_lookup key kept = Some e ->
        get (cleanup_expired c 100).1 key 100
        = (mk (od_move_to_end key kept) (_max_size c) (_ttl_seconds c)
              (_hits c + 1) (_misses c),
           Some (value e))).
Proof.
  apply (cleanup_expired_sweeps
           (mk [("a", mk_entry 1%nat 0%Q); ("b", mk_entry 2%nat 50%Q);
                ("c", mk_entry 3%nat 10%Q)] 4 60 0 0) 100).
  apply (bool_decide_unpack _). vm_compute. reflexivity.
Defined.

Lemma every_get_counts_once_witness :
  let ops := [OpSet "a" 1%nat 0%Q; OpGet "a" 1%Q; OpGet "b" 2%Q; OpClear;
              OpGet "a" 3%Q; OpInvalidate "a"; OpCleanupExpired 4%Q] in
  exists c',
    run (init 2 60) ops = Returned c' tt
    /\ _hits c' + _misses c'
       = _hits (init (Any:=nat) 2 60) + _misses (init (Any:=nat) 2 60) + gets ops
    /\ _hits (init (Any:=nat) 2 60) <= _hits c'
    /\ _misses (init (Any:=nat) 2 60) <= _misses c'.
Proof. apply (every_get_counts_once (init 2 60)). simpl. lia. Defined.

Lemma set_of_stored_key_at_capacity_evicts_witness :
  let c := mk [("a", mk_entry 1%nat 0%Q); ("b", mk_entry 2%nat 1%Q)] 2 60 0 0 in
  exists c',
    set c "b" 9%nat 5%Q = Returned c' tt
    /\ od_lookup "b" (_cache c') = Some (mk_entry 9%nat 5%Q)
    /\ ("b" = "a" -> _cache c' = [("b", mk_entry 2%nat 1%Q)]
                                  ++ [("b", mk_entry 9%nat 5%Q)])
    /\ ("b" <> "a" ->
          keys (_cache c') = keys [("b", mk_entry 2%nat 1%Q)]
          /\ od_lookup "a" (_cache c') = None
          /\ Z.of_nat (length (_cache c')) = _max_size c - 1).
Proof.
  apply (set_of_stored_key_at_capacity_evicts
           (mk [("a", mk_entry 1%nat 0%Q); ("b", mk_entry 2%nat 1%Q)] 2 60 0 0)
           "b" 9%nat 5%Q "a" (mk_entry 1%nat 0%Q)).
  - apply (bool_decide_unpack _). vm_compute. reflexivity.
  - reflexivity.
  - reflexivity.
  - apply (bool_decide_unpack _). vm_compute. reflexivity.
Defined.

Lemma set_of_stored_key_keeps_position_witness :
  let c := mk [("a", mk_entry 1%nat 0%Q); ("b", mk_entry 2%nat 1%Q)] 3 60 0 0 in
  exists c',
    set c "a" 9%nat 5%Q = Returned c' tt
    /\ keys (_cache c') = keys (_cache c)
    /\ od_lookup "a" (_cache c') = Some (mk_entry 9%nat 5%Q)
    /\ (forall k, k <> "a" -> od_lookup k (_cache c') = od_lookup k (_cache c)).
Proof.
  apply (set_of_stored_key_keeps_position
           (mk [("a", mk_entry 1%nat 0%Q); ("b", mk_entry 2%nat 1%Q)] 3 60 0 0)
           "a" 9%nat 5%Q).
  - simpl. lia.
  - apply (bool_decide_unpack _). vm_compute. reflexivity.
Defined.

(** An overwritten key is evicted first all the same: [a] is written twice,
    the second time after [b], and still goes when [c] needs room. *)
Example overwritten_key_is_still_oldest :
  run (init 2 3600) [OpSet "a" 1%nat 0%Q; OpSet "b" 2%nat 1%Q;
                     OpSet "a" 7%nat 2%Q; OpSet "c" 3%nat 3%Q]
  = Returned (mk [("a", mk_entry 7%nat 2%Q); ("c", mk_entry 3%nat 3%Q)]
                 2 3600 0 0) tt.
Proof. reflexivity. Qed.

Lemma hit_does_not_extend_life_witness :
  let c := mk [("k", mk_entry 5%nat 10%Q); ("j", mk_entry 6%nat 20%Q)] 4 60 0 0 in
  let e := mk_entry 5%nat 10%Q in
  let c1 := (get c "k" 69).1 in
  (get c "k" 69).2 = Some (value e)
  /\ od_lookup "k" (_cache c1) = Some e
  /\ get c1 "k" 71
     = (mk (od_delete "k" (_cache c1)) (_max_size c) (_ttl_seconds c)
           (_hits c + 1) (_misses c + 1),
        None)
  /\ od_lookup "k" (od_delete "k" (_cache c1)) = None.
Proof.
  apply (hit_does_not_extend_life
           (mk [("k", mk_entry 5%nat 10%Q); ("j", mk_entry 6%nat 20%Q)] 4 60 0 0)
           "k" (mk_entry 5%nat 10%Q) 69 71).
  - apply (bool_decide_unpack _). vm_compute. reflexivity.
  - reflexivity.
  - unfold Qle. simpl. lia.
  - unfold Qlt. simpl. lia.
Defined.

Lemma invalidate_removes_one_key_witness :
  let c := mk [("k", mk_entry 5%nat 10%Q); ("j", mk_entry 6%nat 20%Q)] 4 60 0 0 in
  let c1 := (invalidate c "k").1 in
  ((invalidate c "k").2 = true <-> "k" ∈ keys (_cache c))
  /\ od_lookup "k" (_cache c1) = None
  /\ (forall k, k <> "k" -> od_lookup k (_cache c1) = od_lookup k (_cache c))
  /\ _hits c1 = _hits c /\ _misses c1 = _misses c
  /\ invalidate c1 "k" = (c1, false).
Proof.
  apply (invalidate_removes_one_key
           (mk [("k", mk_entry 5%nat 10%Q); ("j", mk_entry 6%nat 20%Q)] 4 60 0 0)
           "k").
  apply (bool_decide_unpack _). vm_compute. reflexivity.
Defined.

End TTLCacheMoreFacts.

(** ** The search cache of the vector store *)

Module VectorStoreRepositoryFacts.
Import TTLCache TTLCacheFacts VectorStoreRepository.
Section Facts.

Context {Results : Type}.
Implicit Types (c : TTLCache.t Results) (r : Results) (key : string).
Implicit Types (backend : Results + exn).

(** After a miss the key is not stored (an expired entry was deleted). *)
Lemma miss_leaves_absent c key now :
  NoDup (keys (_cache c)) ->
  (get c key now).2 = None ->
  od_lookup key (_cache (get c key now).1) = None
  /\ _max_size (get c key now).1 = _max_size c
  /\ _ttl_seconds (get c key now).1 = _ttl_seconds c.
Proof.
  intros Hnd. unfold get.
  destruct (od_lookup key (_cache c)) as [e|] eqn:E;
    [destruct (expired _ _ _)|]; cbn; try done.
  intros _. split; [|done]. by apply od_delete_gone.
Qed.

Lemma search_after_absent c key backend now_get now_set :
  1 <= _max_size c ->
  od_lookup key (_cache c) = None ->
  exists c',
    similarity_search_with_score c key backend now_get now_set
    = (c', match backend with inl r => Ok r | inr e => wrap e end)
    /\ _max_size c' = _max_size c
    /\ _ttl_seconds c' = _ttl_seconds c
    /\ match backend with
       | inl r => od_lookup key (_cache c') = Some (mk_entry r now_set)
       | inr _ => od_lookup key (_cache c') = None
       end.
Proof.
  intros Hpos E. unfold similarity_search_with_score.
  rewrite (get_miss c key now_get E).
  destruct backend as [r|e].
  - destruct (set_positive
                (mk (_cache c) (_max_size c) (_ttl_seconds c) (_hits c)
                    (_misses c + 1)) key r now_set Hpos)
      as (c' & Hset & _ & Hm & Ht & _).
    rewrite Hset. exists c'. split_and!; try done.
    by apply set_stores in Hset.
  - eexists. split_and!; done.
Qed.

(** X7.  Memoisation.  On a search cache of capacity at least 1, a search
    that misses and whose backend call returns [r] stores [r]; a search
    with the same key no later than the TTL after that store returns [r]
    from the cache, whatever the backend would answer by then: the backend
    is not asked. *)
Theorem search_is_memoised c key r now_get now_set backend' now_get' now_set' :
  1 <= _max_size c ->
  (get c key now_get).2 = None ->
  (now_get' - now_set <= inject_Z (_ttl_seconds c))%Q ->
  exists c1 c2,
    similarity_search_with_score c key (inl r) now_get now_set = (c1, Ok r)
    /\ similarity_search_with_score c1 key backend' now_get' now_set'
       = (c2, Ok r)
    /\ _hits c2 = _hits c + 1.
Proof.
  intros Hpos Hmiss Hfresh. unfold similarity_search_with_score at 1.
  destruct (get c key now_get) as [c0 cached] eqn:Hget. cbn in Hmiss. subst cached.
  assert (Hc0 : _max_size c0 = _max_size c /\ _ttl_seconds c0 = _ttl_seconds c
                /\ _hits c0 = _hits c).
  { unfold get in Hget. destruct (od_lookup key (_cache c)) as [e|];
      [destruct (expired _ _ _)|]; injection Hget as <-; done. }
  destruct Hc0 as (Hm0 & Ht0 & Hh0).
  destruct (set_positive c0 key r now_set) as (c1 & Hset & _ & Hm1 & Ht1 & _);
    [lia|].
  rewrite Hset. pose proof (set_stores _ _ _ _ _ Hset) as Hst.
  assert (Hh1 : _hits c1 = _hits c0).
  { unfold set in Hset. destruct (evict _ _); [|done]. by injection Hset as <-. }
  exists c1. eexists. split; [done|].
  unfold similarity_search_with_score.
  rewrite (get_hit c1 key now_get' _ Hst); [|cbn; rewrite Ht1, Ht0; done].
  split; [done|]. cbn [_hits]. lia.
Qed.

(** X8.  Failures are not cached.  When a search misses and the backend
    call raises an [Exception], the search raises [VectorStoreError] and
    leaves no entry under the key, so the next search with that key asks the
    backend again and returns what it then answers. *)
Theorem failed_search_is_not_cached c key e now_get now_set r now_get' now_set' :
  1 <= _max_size c ->
  NoDup (keys (_cache c)) ->
  (get c key now_get).2 = None ->
  is_Exception e = true ->
  exists c1 c2,
    similarity_search_with_score c key (inr e) now_get now_set
    = (c1, VectorStoreError)
    /\ od_lookup key (_cache c1) = None
    /\ similarity_search_with_score c1 key (inl r) now_get' now_set'
       = (c2, Ok r).
Proof.
  intros Hpos Hnd Hmiss He.
  destruct (miss_leaves_absent c key now_get Hnd Hmiss) as (Habs & Hm & Ht).
  unfold similarity_search_with_score at 1.
  destruct (get c key now_get) as [c0 cached]. cbn in *. subst cached.
  unfold wrap. rewrite He.
  destruct (search_after_absent c0 key (inl r) now_get' now_set')
    as (c2 & Hs & _); [lia | done |].
  exists c0, c2. done.
Qed.

(** X9.  Document changes empty the cache.  After [add_documents] has
    returned, or [delete_by_source] has deleted something, a search never
    answers from the cache, whatever was stored before: it returns what the
    backend answers now, and stores it.  A [delete_by_source] that finds
    nothing leaves the cache as it is. *)
Theorem search_after_change_asks_backend c n key backend now_get now_set :
  1 <= _max_size c ->
  (add_documents c n None).1 = (delete_by_source c (inl true)).1
  /\ (delete_by_source c (inl false)).1 = c
  /\ exists c',
       similarity_search_with_score (add_documents c n None).1 key backend
                                    now_get now_set
       = (c', match backend with inl r => Ok r | inr e => wrap e end)
       /\ match backend with
          | inl r => _cache c' = [(key, mk_entry r now_set)]
          | inr _ => _cache c' = []
          end.
Proof.
  intros Hpos. split; [done|]. split; [done|]. cbn [add_documents fst].
  unfold similarity_search_with_score, get, clear. cbn.
  destruct backend as [r|e]; [|by eexists].
  unfold set. cbn [_max_size _cache evict].
  destruct (Z.geb_spec 0 (_max_size c)); [lia|]. by eexists.
Qed.

End Facts.

Local Open Scope string_scope.
Local Open Scope list_scope.

Lemma search_is_memoised_witness :
  exists c1 c2,
    similarity_search_with_score (init 512 1800) "q" (inl 7%nat) 0 1 = (c1, Ok 7%nat)
    /\ similarity_search_with_score c1 "q" (inr (WorkError "down")) 1801 1802
       = (c2, Ok 7%nat)
    /\ _hits c2 = _hits (init (Any:=nat) 512 1800) + 1.
Proof.
  apply (search_is_memoised (init 512 1800) "q" 7%nat 0 1).
  - simpl. lia.
  - reflexivity.
  - unfold Qle. simpl. lia.
Defined.

Lemma failed_search_is_not_cached_witness :
  exists c1 c2,
    similarity_search_with_score
      (mk [("q", mk_entry 3%nat 0%Q)] 512 1800 0 0) "q"
      (inr (WorkError "down")) 2000 2001
    = (c1, VectorStoreError)
    /\ od_lookup "q" (_cache c1) = None
    /\ similarity_search_with_score c1 "q" (inl 7%nat) 2002 2003 = (c2, Ok 7%nat).
Proof.
  apply (failed_search_is_not_cached
           (mk [("q", mk_entry 3%nat 0%Q)] 512 1800 0 0) "q" (WorkError "down")).
  - simpl. lia.
  - apply (bool_decide_unpack _). vm_compute. reflexivity.
  - reflexivity.
  - reflexivity.
Defined.

Lemma search_after_change_asks_backend_witness :
  let c := mk [("q", mk_entry 3%nat 0%Q)] 512 1800 0 0 in
  (add_documents c 4 None).1 = (delete_by_source c (inl true)).1
  /\ (delete_by_source c (inl false)).1 = c
  /\ exists c',
       similarity_search_with_score (add_documents c 4 None).1 "q" (inl 7%nat)
                                    1 2
       = (c', Ok 7%nat)
       /\ _cache c' = [("q", mk_entry 7%nat 2%Q)].
Proof.
  apply (search_after_change_asks_backend
           (mk [("q", mk_entry 3%nat 0%Q)] 512 1800 0 0) 4 "q" (inl 7%nat) 1 2).
  simpl. lia.
Defined.

End VectorStoreRepositoryFacts.

(** ** More on the rate limiter *)

Module RateLimiterMoreFacts.
Import RateLimiter RateLimiterOps RateLimiterFacts.
Section Facts.

Context {Request : Type}.
Variable _get_client_key : Request -> string.
Implicit Types (rl : t) (b : bucket) (request : Request) (a : call Request).

(** [check] in one piece: it works on the client's bucket, or on a full
    bucket stamped [created] when the client has none, and stores the
    result under the client's key. *)
Lemma check_spec rl request cost created now :
  let key := _get_client_key request in
  let b0 := default (mk_bucket (inject_Z (_max_tokens rl)) created)
                    (_buckets rl !! key) in
  let b1 := _refill rl b0 now in
  check _get_client_key rl request cost created now
  = (store rl key
           (if Qle_bool (inject_Z cost) (tokens b1)
            then mk_bucket (tokens b1 - inject_Z cost) now else b1),
     Qle_bool (inject_Z cost) (tokens b1)).
Proof.
  intros key b0 b1. unfold check, bucket_of. fold key. subst b1 b0.
  destruct (_buckets rl !! key) as [b|]; cbn [default].
  - cbn [_refill tokens last_refill]. by destruct (Qle_bool _ _).
  - cbn [_refill tokens last_refill store _max_tokens _refill_rate].
    destruct (Qle_bool _ _); by rewrite store_store.
Qed.

Lemma store_lookup rl key b k :
  _buckets (store rl key b) !! k
  = if decide (key = k) then Some b else _buckets rl !! k.
Proof. unfold store. cbn. apply lookup_insert. Qed.

(** X10.  Clients do not share tokens.  A [check] for one client leaves the
    bucket of every client with a different key as it was, so the answer to
    another client's [check], and the bucket that [check] leaves, are the
    same whether or not the first call was made. *)
Theorem clients_are_isolated rl r1 cost1 created1 now1 r2 cost2 created2 now2 :
  _get_client_key r1 <> _get_client_key r2 ->
  let rl1 := (check _get_client_key rl r1 cost1 created1 now1).1 in
  _buckets rl1 !! _get_client_key r2 = _buckets rl !! _get_client_key r2
  /\ (check _get_client_key rl1 r2 cost2 created2 now2).2
     = (check _get_client_key rl r2 cost2 created2 now2).2
  /\ _buckets (check _get_client_key rl1 r2 cost2 created2 now2).1
       !! _get_client_key r2
     = _buckets (check _get_client_key rl r2 cost2 created2 now2).1
         !! _get_client_key r2.
Proof.
  intros Hne rl1.
  assert (Hrl1 : _buckets rl1 !! _get_client_key r2
                 = _buckets rl !! _get_client_key r2
                 /\ _max_tokens rl1 = _max_tokens rl
                 /\ _refill_rate rl1 = _refill_rate rl).
  { subst rl1. rewrite check_spec. cbn [fst]. rewrite store_lookup.
    by rewrite decide_False. }
  destruct Hrl1 as (Hlook & Hm & Hr). clearbody rl1.
  split; [done|]. rewrite !check_spec. cbn zeta. unfold _refill.
  rewrite Hlook, Hm, Hr. cbn [fst snd]. split; [done|].
  by rewrite !store_lookup, !decide_True.
Qed.

(** One [check] keeps the bounds, when the clock does not go back. *)
Lemma check_within_bounds rl a clock :
  0 <= _max_tokens rl ->
  (0 <= _refill_rate rl)%Q ->
  0 <= call_cost a ->
  (clock <= call_created a)%Q ->
  (call_created a <= call_now a)%Q ->
  within_bounds rl clock ->
  within_bounds (check_call _get_client_key rl a).1 (call_now a).
Proof.
  intros Hmax Hrate Hcost Hc1 Hc2 Hin. unfold check_call.
  rewrite check_spec. cbn [fst]. intros key b. rewrite store_lookup.
  cbn [store _max_tokens].
  assert (HmaxQ : (0 <= inject_Z (_max_tokens rl))%Q).
  { change 0%Q with (inject_Z 0). by rewrite <- Zle_Qle. }
  assert (HcostQ : (0 <= inject_Z (call_cost a))%Q).
  { change 0%Q with (inject_Z 0). by rewrite <- Zle_Qle. }
  destruct (decide (_get_client_key (call_request a) = key)) as [_|_].
  2:{ intros Hb. destruct (Hin key b Hb) as (? & ? & ?).
      split_and!; [done | done | lra]. }
  set (b0 := default _ _).
  assert (Hb0 : (0 <= tokens b0)%Q /\ (tokens b0 <= inject_Z (_max_tokens rl))%Q
                /\ (last_refill b0 <= call_now a)%Q).
  { subst b0. destruct (_buckets rl !! _) as [b'|] eqn:Hb'; cbn.
    - destruct (Hin _ b' Hb') as (? & ? & ?). split_and!; [done | done | lra].
    - split_and!; [done | lra | done]. }
  destruct Hb0 as (H0 & H1 & H2).
  set (t1 := tokens (_refill rl b0 (call_now a))).
  assert (Ht1 : (0 <= t1)%Q /\ (t1 <= inject_Z (_max_tokens rl))%Q).
  { subst t1. cbn [_refill tokens]. split.
    - apply Q.min_glb; [done|].
      assert (0 <= (call_now a - last_refill b0) * _refill_rate rl)%Q
        by (apply Qmult_le_0_compat; lra).
      lra.
    - apply Q.le_min_l. }
  destruct Ht1 as [Ht0 Htm].
  destruct (Qle_bool (inject_Z (call_cost a)) t1) eqn:Hle; intros [= <-].
  - apply Qle_bool_iff in Hle. cbn [tokens last_refill]. clearbody t1.
    split_and!; lra.
  - split_and!; [exact Ht0 | exact Htm | cbn [_refill last_refill]; lra].
Qed.

(** X11.  Token bounds.  If the limiter has a capacity and a refill rate
    that are not negative, costs are not negative, the clock never goes
    back, and every bucket starts within bounds (between 0 and [max_tokens]
    tokens, refilled no later than the start; so does a limiter without
    buckets), then after any sequence of [check] calls every bucket holds
    at least 0 and at most [max_tokens] tokens. *)
Theorem tokens_stay_within_bounds rl calls start :
  0 <= _max_tokens rl ->
  (0 <= _refill_rate rl)%Q ->
  Forall (fun a => 0 <= call_cost a) calls ->
  clock_advances start calls ->
  within_bounds rl start ->
  forall key b,
    _buckets (checks _get_client_key rl calls).1 !! key = Some b ->
    (0 <= tokens b)%Q /\ (tokens b <= inject_Z (_max_tokens rl))%Q.
Proof.
  intros Hmax Hrate Hcosts Hclock Hin.
  assert (Hgen : exists clock,
             within_bounds (checks _get_client_key rl calls).1 clock
             /\ _max_tokens (checks _get_client_key rl calls).1 = _max_tokens rl).
  { revert rl start Hmax Hrate Hclock Hin.
    induction Hcosts as [|a calls Ha Hcosts IH];
      intros rl start Hmax Hrate Hclock Hin.
    - by exists start.
    - cbn [clock_advances] in Hclock. destruct Hclock as (Hc1 & Hc2 & Hclock).
      pose proof (check_within_bounds rl a start Hmax Hrate Ha Hc1 Hc2 Hin) as Hin1.
      cbn [checks].
      destruct (check_call _get_client_key rl a) as [rl1 ok] eqn:Hck.
      assert (Hcfg : _max_tokens rl1 = _max_tokens rl
                     /\ _refill_rate rl1 = _refill_rate rl).
      { unfold check_call in Hck. rewrite check_spec in Hck.
        by injection Hck as <- _. }
      destruct Hcfg as [Hm Hr]. cbn [fst] in Hin1.
      destruct (IH rl1 (call_now a)) as (clock & Hb & Hm'); [lia | by rewrite Hr | done | done |].
      destruct (checks _get_client_key rl1 calls) as [rl2 rest].
      exists clock. cbn [fst] in *. split; [done | lia]. }
  destruct Hgen as (clock & Hb & Hm). intros key b Hkb.
  destruct (Hb key b Hkb) as (? & ? & _). rewrite Hm in *. done.
Qed.


(** *** Bursts, costs above the capacity *)

Lemma checks_config rl calls :
  _max_tokens (checks _get_client_key rl calls).1 = _max_tokens rl
  /\ _refill_rate (checks _get_client_key rl calls).1 = _refill_rate rl
  /\ _window_seconds (checks _get_client_key rl calls).1 = _window_seconds rl.
Proof.
  revert rl. induction calls as [|a calls IH]; intros rl; [done|].
  cbn [checks]. unfold check_call. rewrite check_spec.
  set (rl1 := store _ _ _). specialize (IH rl1).
  destruct (checks _get_client_key rl1 calls) as [rl2 rest]. by subst rl1.
Qed.

Lemma inject_Z_pred k : (inject_Z (k - 1) == inject_Z k - 1)%Q.
Proof.
  unfold Z.sub. rewrite inject_Z_plus, inject_Z_opp. unfold Qminus.
  reflexivity.
Qed.

(** A run of checks of cost 1 at one instant, on a bucket that holds a whole
    number [k] of tokens and was refilled at that instant: the first [k]
    are allowed, the others are not. *)
Lemma burst_from n : forall rl a k,
  call_cost a = 1 ->
  (let b0 := default (mk_bucket (inject_Z (_max_tokens rl)) (call_created a))
                     (_buckets rl !! _get_client_key (call_request a)) in
   (tokens b0 == inject_Z k)%Q /\ (last_refill b0 == call_now a)%Q) ->
  k <= _max_tokens rl ->
  (checks _get_client_key rl (replicate n a)).2
  = replicate (n `min` Z.to_nat k) true ++ replicate (n - Z.to_nat k) false.
Proof.
  induction n as [|n IH]; intros rl a k Hcost Hb Hk; [done|].
  cbn [replicate checks]. unfold check_call. rewrite check_spec, Hcost.
  cbn zeta in *. set (key := _get_client_key (call_request a)) in *.
  set (b0 := default _ _) in *. destruct Hb as [Ht Hl].
  assert (Ht1 : (tokens (_refill rl b0 (call_now a)) == inject_Z k)%Q).
  { cbn [_refill tokens]. rewrite Hl, Ht.
    assert (E : ((call_now a - call_now a) * _refill_rate rl == 0)%Q) by ring.
    rewrite E, Qplus_0_r. apply Q.min_r. by rewrite <- Zle_Qle. }
  set (b1 := _refill rl b0 (call_now a)) in *.
  destruct (Qle_bool (inject_Z 1) (tokens b1)) eqn:Hle.
  - apply Qle_bool_iff in Hle. rewrite Ht1 in Hle.
    rewrite <- Zle_Qle in Hle.
    set (rl1 := store rl key _).
    specialize (IH rl1 a (k - 1) Hcost).
    destruct (checks _get_client_key rl1 (replicate n a)) as [rl2 rest].
    cbn [snd] in *. rewrite IH.
    + replace (Z.to_nat k) with (S (Z.to_nat (k - 1))) by lia. done.
    + subst rl1. fold key. rewrite store_lookup, decide_True by done.
      cbn [default from_option id tokens last_refill]. split; [|done].
      pose proof (inject_Z_pred k). change (inject_Z 1) with 1%Q. lra.
    + subst rl1. cbn [store _max_tokens]. lia.
  - assert (Hlt : ~ 1 <= k).
    { intros H1. rewrite Zle_Qle, <- Ht1 in H1.
      apply Qle_bool_iff in H1. congruence. }
    set (rl1 := store rl key _).
    specialize (IH rl1 a k Hcost).
    destruct (checks _get_client_key rl1 (replicate n a)) as [rl2 rest].
    cbn [snd] in *. rewrite IH.
    + replace (Z.to_nat k) with 0%nat by lia.
      rewrite Nat.min_0_r, !Nat.sub_0_r. done.
    + subst rl1. fold key. rewrite store_lookup, decide_True by done.
      cbn [default from_option id]. split; [done|]. subst b1. by cbn [_refill last_refill].
    + subst rl1. by cbn [store _max_tokens].
Qed.

(** X12.  Burst size.  A client without a bucket that sends [n] requests of
    cost 1 at one instant has the first [max_tokens] of them allowed and
    every later one refused, whatever the refill rate. *)
Theorem burst_is_capacity rl request now n :
  _buckets rl !! _get_client_key request = None ->
  (checks _get_client_key rl (replicate n (mk_call request 1 now now))).2
  = replicate (n `min` Z.to_nat (_max_tokens rl)) true
    ++ replicate (n - Z.to_nat (_max_tokens rl)) false.
Proof.
  intros Hnew. apply burst_from; [done | | done].
  cbn [call_request call_created call_now]. rewrite Hnew. by cbn.
Qed.

(** X13.  A cost above the capacity is never admitted: whatever the bucket
    holds and however long the client has waited, [check] answers [False],
    and the bucket is left as the refill made it. *)
Theorem cost_above_capacity_is_refused rl request cost created now :
  _max_tokens rl < cost ->
  (check _get_client_key rl request cost created now).2 = false
  /\ forall b,
       _buckets (check _get_client_key rl request cost created now).1
         !! _get_client_key request = Some b ->
       (tokens b <= inject_Z (_max_tokens rl))%Q /\ last_refill b = now.
Proof.
  intros Hcost. rewrite check_spec. cbn zeta. cbn [fst snd].
  set (b1 := _refill _ _ _).
  assert (Hb1 : (tokens b1 <= inject_Z (_max_tokens rl))%Q).
  { subst b1. cbn [_refill tokens]. apply Q.le_min_l. }
  assert (Hle : Qle_bool (inject_Z cost) (tokens b1) = false).
  { destruct (Qle_bool _ _) eqn:Hle; [|done]. apply Qle_bool_iff in Hle.
    assert (inject_Z cost <= inject_Z (_max_tokens rl))%Q by lra.
    rewrite <- Zle_Qle in *. lia. }
  rewrite Hle. split; [done|]. intros b. rewrite store_lookup, decide_True by done.
  by intros [= <-].
Qed.


(** *** The delay after a refusal *)

(** What a refused [check] leaves: the client's bucket, refilled at the
    time of the call, with fewer tokens than the cost. *)
Lemma refused_check rl request cost created now0 rl1 :
  check _get_client_key rl request cost created now0 = (rl1, false) ->
  exists t1,
    (t1 < inject_Z cost)%Q
    /\ _buckets rl1 !! _get_client_key request = Some (mk_bucket t1 now0)
    /\ _max_tokens rl1 = _max_tokens rl
    /\ _refill_rate rl1 = _refill_rate rl.
Proof.
  rewrite check_spec. cbn zeta. set (b1 := _refill _ _ _).
  destruct (Qle_bool (inject_Z cost) (tokens b1)) eqn:Hle; [done|].
  intros [= <-]. exists (tokens b1). split_and!; try done.
  - apply Qnot_le_lt. intros H. apply Qle_bool_iff in H. congruence.
  - by rewrite store_lookup, decide_True.
Qed.

(** The delay computed from a bucket refilled at [now0] that is short of
    the cost, and the checks that follow it. *)
Lemma retry_after_spec rl request cost t1 now0 :
  (0 < _refill_rate rl)%Q ->
  cost <= _max_tokens rl ->
  _buckets rl !! _get_client_key request = Some (mk_bucket t1 now0) ->
  (t1 < inject_Z cost)%Q ->
  let d := ((inject_Z cost - t1) / _refill_rate rl)%Q in
  (0 < d)%Q
  /\ (forall created, get_retry_after _get_client_key rl request cost created
                      = Returned rl d)
  /\ (forall created now,
        (check _get_client_key rl request cost created now).2 = true
        <-> (now0 + d <= now)%Q).
Proof.
  intros Hrate Hcost Hb Ht d.
  assert (Hd : (d * _refill_rate rl == inject_Z cost - t1)%Q).
  { subst d. rewrite Qmult_comm. apply Qmult_div_r. lra. }
  assert (Hpos : (0 < d)%Q).
  { subst d. apply Qlt_shift_div_l; [done|]. lra. }
  split_and!; [done | |].
  - intros created. unfold get_retry_after, bucket_of. rewrite Hb.
    cbn [tokens].
    destruct (Qle_bool (inject_Z cost - t1) 0) eqn:H1.
    { apply Qle_bool_iff in H1. lra. }
    destruct (Qeq_bool (_refill_rate rl) 0) eqn:H2; [|done].
    apply Qeq_bool_iff in H2. lra.
  - intros created now. rewrite check_spec. cbn zeta. cbn [snd].
    rewrite Hb. cbn [default from_option id _refill tokens last_refill].
    rewrite Qle_bool_iff, Q.min_glb_iff, <- Zle_Qle.
    rewrite <- (Qmult_le_r (now0 + d) now (_refill_rate rl)) by done.
    split.
    + intros [_ H]. lra.
    + intros H. split; [done|]. lra.
Qed.


(** *** [get_remaining] *)

Lemma get_remaining_spec rl request created now :
  let key := _get_client_key request in
  let b0 := default (mk_bucket (inject_Z (_max_tokens rl)) created)
                    (_buckets rl !! key) in
  let b1 := _refill rl b0 now in
  get_remaining _get_client_key rl request created now
  = (store rl key b1, py_int (tokens b1)).
Proof.
  intros key b0 b1. unfold get_remaining, bucket_of. fold key. subst b1 b0.
  destruct (_buckets rl !! key) as [b|]; cbn [default from_option id]; [done|].
  cbn [_refill tokens last_refill store _max_tokens _refill_rate].
  by rewrite store_store.
Qed.

(** X15.  [get_remaining] tells what can be spent.  On a limiter within its
    bounds, whose clock has not gone back, a [check] made at the instant of
    [get_remaining] is allowed exactly when its cost is at most the number
    returned, and it is answered as it would have been had [get_remaining]
    not been called. *)
Theorem remaining_predicts_check rl request created now clock cost created1 :
  0 <= _max_tokens rl ->
  (0 <= _refill_rate rl)%Q ->
  within_bounds rl clock ->
  (clock <= created)%Q ->
  (created <= now)%Q ->
  let rl1 := (get_remaining _get_client_key rl request created now).1 in
  let remaining := (get_remaining _get_client_key rl request created now).2 in
  ((check _get_client_key rl1 request cost created1 now).2 = true
   <-> cost <= remaining)
  /\ (check _get_client_key rl1 request cost created1 now).2
     = (check _get_client_key rl request cost created now).2.
Proof.
  intros Hmax Hrate Hin Hc1 Hc2. rewrite get_remaining_spec. cbn zeta.
  cbn [fst snd]. rewrite !check_spec. cbn zeta. cbn [snd].
  rewrite store_lookup, decide_True by done.
  cbn [default from_option id store _max_tokens _refill_rate].
  set (b0 := from_option id _ _).
  assert (Hb0 : (0 <= tokens b0)%Q /\ (last_refill b0 <= now)%Q).
  { subst b0. destruct (_buckets rl !! _) as [b'|] eqn:Hb'; cbn.
    - destruct (Hin _ b' Hb') as (? & ? & ?). split; lra.
    - split; [|lra]. change 0%Q with (inject_Z 0). by rewrite <- Zle_Qle. }
  destruct Hb0 as [H0 H1].
  set (b1 := _refill rl b0 now).
  assert (Ht1 : (0 <= tokens b1)%Q /\ (tokens b1 <= inject_Z (_max_tokens rl))%Q).
  { subst b1. cbn [_refill tokens]. split; [|apply Q.le_min_l].
    apply Q.min_glb.
    - change 0%Q with (inject_Z 0). by rewrite <- Zle_Qle.
    - assert (0 <= (now - last_refill b0) * _refill_rate rl)%Q
        by (apply Qmult_le_0_compat; lra).
      lra. }
  destruct Ht1 as [Ht0 Htm].
  assert (Hlr : last_refill b1 = now) by done. clearbody b1.
  assert (Hagain : (tokens (_refill rl b1 now) == tokens b1)%Q).
  { cbn [_refill tokens last_refill]. rewrite Hlr.
    assert (E : ((now - now) * _refill_rate rl == 0)%Q) by ring.
    rewrite E, Qplus_0_r. by apply Q.min_r. }
  assert (Hsame : Qle_bool (inject_Z cost) (tokens (_refill rl b1 now))
                  = Qle_bool (inject_Z cost) (tokens b1)).
  { apply eq_true_iff_eq. rewrite !Qle_bool_iff. by rewrite Hagain. }
  change (_refill (store rl _ b1) b1 now) with (_refill rl b1 now).
  split; [|done]. rewrite Hsame, Qle_bool_iff. unfold py_int.
  assert (Hf : Qle_bool 0 (tokens b1) = true) by by apply Qle_bool_iff.
  rewrite Hf. split.
  - intros H. apply Qfloor_resp_le in H. by rewrite Qfloor_Z in H.
  - intros H. rewrite Zle_Qle in H. pose proof (Qfloor_le (tokens b1)). lra.
Qed.

(** *** Clients that were never seen *)

(** X16.  A client without a bucket is admitted.  When the refill rate is
    not negative, every call of a sequence whose client keys are pairwise
    distinct and unknown to the limiter, with a cost the capacity allows, is
    allowed: a bucket is made full for each of them. *)
Theorem new_clients_are_admitted calls : forall rl,
  (0 <= _refill_rate rl)%Q ->
  NoDup (map (fun a => _get_client_key (call_request a)) calls) ->
  Forall (fun a => _buckets rl !! _get_client_key (call_request a) = None
                   /\ call_cost a <= _max_tokens rl
                   /\ (call_created a <= call_now a)%Q) calls ->
  (checks _get_client_key rl calls).2 = replicate (length calls) true.
Proof.
  induction calls as [|a calls IH]; intros rl Hrate Hnd Hall; [done|].
  cbn [map] in Hnd. apply NoDup_cons in Hnd as [Hnew Hnd].
  apply Forall_cons in Hall as [(Hb & Hcost & Hclock) Hall].
  cbn [checks length replicate]. unfold check_call. rewrite check_spec.
  cbn zeta. rewrite Hb. cbn [default from_option id].
  set (b1 := _refill _ _ _).
  assert (Hle : Qle_bool (inject_Z (call_cost a)) (tokens b1) = true).
  { apply Qle_bool_iff. subst b1. cbn [_refill tokens last_refill].
    apply Q.min_glb; [by rewrite <- Zle_Qle|].
    assert (inject_Z (call_cost a) <= inject_Z (_max_tokens rl))%Q
      by by rewrite <- Zle_Qle.
    assert (0 <= (call_now a - call_created a) * _refill_rate rl)%Q
      by (apply Qmult_le_0_compat; lra).
    lra. }
  rewrite Hle. set (rl1 := store _ _ _).
  specialize (IH rl1). destruct (checks _get_client_key rl1 calls) as [rl2 rest].
  cbn [snd] in *. f_equal. apply IH; [done | done |].
  rewrite Forall_forall in Hall |- *. intros a' Hin.
  destruct (Hall a' Hin) as (Hb' & Hcost' & Hclock').
  split_and!; [|done|done]. subst rl1. rewrite store_lookup, decide_False; [done|].
  intros Heq. apply Hnew. rewrite Heq. apply list_elem_of_fmap. eauto.
Qed.


(** *** [cleanup] *)

Lemma fold_delete_lookup (keys : list string) : forall (m : gmap string bucket) k,
  fold_left (fun m key => delete key m) keys m !! k
  = if decide (k ∈ keys) then None else m !! k.
Proof.
  induction keys as [|key keys IH]; intros m k; cbn [fold_left].
  - rewrite decide_False; [done|]. apply not_elem_of_nil.
  - rewrite IH. destruct (decide (k ∈ keys)) as [Hin|Hnin].
    + rewrite decide_True; [done|]. by right.
    + destruct (decide (k = key)) as [->|Hne].
      * rewrite lookup_delete_eq, decide_True; [done|]. by left.
      * rewrite lookup_delete_ne by done. rewrite decide_False; [done|].
        by intros [?|?]%elem_of_cons.
Qed.

Lemma fold_delete_size (keys : list string) : forall (m : gmap string bucket),
  NoDup keys ->
  Forall (fun key => is_Some (m !! key)) keys ->
  (size (fold_left (fun m key => delete key m) keys m) + length keys)%nat
  = size m.
Proof.
  induction keys as [|key keys IH]; intros m Hnd Hall; cbn [fold_left length].
  - lia.
  - apply NoDup_cons in Hnd as [Hnew Hnd].
    apply Forall_cons in Hall as [[b Hb] Hall].
    rewrite Nat.add_succ_r, IH; [|done|].
    + assert (Hs : is_Some (m !! key)) by eauto.
      pose proof (map_size_delete_Some key m Hs).
      pose proof (map_size_ne_0_lookup_2 m key Hs). lia.
    + rewrite Forall_forall in Hall |- *. intros k Hk.
      rewrite lookup_delete_ne; [by apply Hall|]. by intros ->.
Qed.

Lemma filter_sublist {A} (p : A -> bool) (l : list A) :
  List.filter p l `sublist_of` l.
Proof.
  induction l as [|x l IH]; cbn [List.filter]; [done|].
  destruct (p x); by constructor.
Qed.

Lemma elem_of_stale_keys rl now k :
  k ∈ stale_keys rl now
  <-> exists b, _buckets rl !! k = Some b /\ stale rl now b = true.
Proof.
  unfold stale_keys. rewrite list_elem_of_fmap. split.
  - intros ([k' b] & -> & Hin). apply list_elem_of_In, filter_In in Hin.
    destruct Hin as [Hin Hs]. apply list_elem_of_In, elem_of_map_to_list in Hin.
    by exists b.
  - intros (b & Hb & Hs). exists (k, b). split; [done|].
    apply list_elem_of_In, filter_In. split; [|done].
    by apply list_elem_of_In, elem_of_map_to_list.
Qed.

Lemma cleanup_lookup rl now k :
  _buckets (cleanup rl now).1 !! k
  = match _buckets rl !! k with
    | Some b => if stale rl now b then None else Some b
    | None => None
    end.
Proof.
  unfold cleanup. cbn [fst _buckets]. rewrite fold_delete_lookup.
  destruct (decide (k ∈ stale_keys rl now)) as [Hin|Hnin].
  - apply elem_of_stale_keys in Hin as (b & -> & ->). done.
  - destruct (_buckets rl !! k) as [b|] eqn:Hb; [|done].
    destruct (stale rl now b) eqn:Hs; [|done].
    exfalso. apply Hnin, elem_of_stale_keys. eauto.
Qed.

(** X17.  What [cleanup] removes.  After [cleanup] at time [now] a client
    has a bucket exactly when it had one that was refilled no more than
    [10 * window_seconds] seconds before [now], and that bucket is
    untouched; the number returned is the number of buckets removed, the
    difference of [active_clients] in [get_stats] before and after. *)
Theorem cleanup_removes_idle_buckets rl now :
  (forall key,
     _buckets (cleanup rl now).1 !! key
     = match _buckets rl !! key with
       | Some b =>
           if Qle_bool (now - last_refill b) (inject_Z (_window_seconds rl * 10))
           then Some b else None
       | None => None
       end)
  /\ (cleanup rl now).2
     = (get_stats rl).1.1 - (get_stats (cleanup rl now).1).1.1
  /\ (get_stats (cleanup rl now).1).1.2 = (get_stats rl).1.2
  /\ (get_stats (cleanup rl now).1).2 = (get_stats rl).2.
Proof.
  split_and!; [| |done|done].
  - intros key. rewrite cleanup_lookup. destruct (_buckets rl !! key); [|done].
    unfold stale, Qgtb. by destruct (Qle_bool _ _).
  - unfold get_stats, cleanup. cbn [fst snd _buckets].
    pose proof (fold_delete_size (stale_keys rl now) (_buckets rl)) as Hsize.
    rewrite <- Hsize; [lia | |].
    + unfold stale_keys.
      apply (sublist_NoDup _ ((map_to_list (_buckets rl)).*1)).
      * apply NoDup_fst_map_to_list.
      * apply fmap_sublist, filter_sublist.
    + rewrite Forall_forall. intros k (b & Hb & _)%elem_of_stale_keys. eauto.
Qed.

(** One [check] keeps two limiters in agreement, and is answered alike by
    both. *)
Lemma check_agree rl rl' a clock :
  (0 <= _refill_rate rl)%Q ->
  (clock <= call_created a)%Q ->
  (call_created a <= call_now a)%Q ->
  agree rl rl' clock ->
  agree (check_call _get_client_key rl a).1
        (check_call _get_client_key rl' a).1 (call_now a)
  /\ (check_call _get_client_key rl a).2 = (check_call _get_client_key rl' a).2.
Proof.
  intros Hrate Hc1 Hc2 (Hm & Hr & Hkeys). unfold check_call.
  rewrite !check_spec. cbn zeta. cbn [fst snd].
  set (key := _get_client_key (call_request a)).
  set (b0 := default _ (_buckets rl !! key)).
  set (b0' := default _ (_buckets rl' !! key)).
  set (t1 := tokens (_refill rl b0 (call_now a))).
  set (t1' := tokens (_refill rl' b0' (call_now a))).
  assert (Ht : (t1 == t1')%Q).
  { subst t1 t1' b0 b0'. cbn [_refill tokens]. rewrite Hm, Hr.
    specialize (Hkeys key).
    destruct (_buckets rl !! key) as [b|], (_buckets rl' !! key) as [b'|];
      cbn [default from_option id tokens last_refill]; try done.
    - destruct Hkeys as [-> ->]. reflexivity.
    - destruct Hkeys as [Hb0 Hsat].
      assert ((clock - last_refill b) * _refill_rate rl
              <= (call_now a - last_refill b) * _refill_rate rl)%Q
        by (apply Qmult_le_compat_r; lra).
      assert (0 <= (call_now a - call_created a) * _refill_rate rl)%Q
        by (apply Qmult_le_0_compat; lra).
      rewrite !Q.min_l by lra. reflexivity. }
  assert (Hle : Qle_bool (inject_Z (call_cost a)) t1
                = Qle_bool (inject_Z (call_cost a)) t1').
  { apply eq_true_iff_eq. rewrite !Qle_bool_iff. by rewrite Ht. }
  split; [|done]. rewrite <- Hle. split_and!; [done | done |].
  intros k. rewrite !store_lookup. destruct (decide (key = k)) as [_|Hne].
  - destruct (Qle_bool _ t1); cbn [tokens last_refill]; [|done].
    split; [|done]. by rewrite Ht.
  - specialize (Hkeys k).
    destruct (_buckets rl !! k) as [b|], (_buckets rl' !! k) as [b'|]; try done.
    destruct Hkeys as [Hb0 Hsat]. split; [done|].
    cbn [store _max_tokens _refill_rate].
    assert ((clock - last_refill b) * _refill_rate rl
            <= (call_now a - last_refill b) * _refill_rate rl)%Q
      by (apply Qmult_le_compat_r; lra).
    lra.
Qed.

Lemma checks_agree calls : forall rl rl' clock,
  (0 <= _refill_rate rl)%Q ->
  clock_advances clock calls ->
  agree rl rl' clock ->
  (checks _get_client_key rl calls).2 = (checks _get_client_key rl' calls).2.
Proof.
  induction calls as [|a calls IH]; intros rl rl' clock Hrate Hclock Hag; [done|].
  cbn [clock_advances] in Hclock. destruct Hclock as (Hc1 & Hc2 & Hclock).
  destruct (check_agree rl rl' a clock Hrate Hc1 Hc2 Hag) as [Hag1 Hans].
  cbn [checks].
  assert (Hr1 : _refill_rate (check_call _get_client_key rl a).1 = _refill_rate rl).
  { unfold check_call. by rewrite check_spec. }
  destruct (check_call _get_client_key rl a) as [rl1 ok].
  destruct (check_call _get_client_key rl' a) as [rl1' ok'].
  cbn [fst snd] in *. subst ok'.
  specialize (IH rl1 rl1' (call_now a)).
  destruct (checks _get_client_key rl1 calls) as [rl2 rest].
  destruct (checks _get_client_key rl1' calls) as [rl2' rest'].
  cbn [snd] in *. f_equal. apply IH; [by rewrite Hr1 | done | done].
Qed.

(** X18.  [cleanup] does not change any answer.  If a full window of idle
    time always refills a bucket ([max_tokens <= 10 * window_seconds *
    refill_rate], as for the three limiters the application makes), the
    limiter is within its bounds and the clock does not go back, then every
    later sequence of [check] calls gets the same answers whether or not
    [cleanup] was run. *)
Theorem cleanup_keeps_answers rl now calls :
  (0 <= _refill_rate rl)%Q ->
  (inject_Z (_max_tokens rl)
   <= inject_Z (_window_seconds rl * 10) * _refill_rate rl)%Q ->
  within_bounds rl now ->
  clock_advances now calls ->
  (checks _get_client_key (cleanup rl now).1 calls).2
  = (checks _get_client_key rl calls).2.
Proof.
  intros Hrate Hwin Hin Hclock. symmetry.
  apply (checks_agree calls rl (cleanup rl now).1 now); [done | done |].
  split_and!; [done | done |]. intros key. rewrite cleanup_lookup.
  destruct (_buckets rl !! key) as [b|] eqn:Hb; [|done].
  destruct (stale rl now b) eqn:Hs; [|done].
  destruct (Hin key b Hb) as (H0 & _ & _). split; [done|].
  unfold stale, Qgtb in Hs. apply negb_true_iff in Hs.
  assert (Hlt : (inject_Z (_window_seconds rl * 10) < now - last_refill b)%Q).
  { apply Qnot_le_lt. intros H. apply Qle_bool_iff in H. congruence. }
  assert (inject_Z (_window_seconds rl * 10) * _refill_rate rl
          <= (now - last_refill b) * _refill_rate rl)%Q
    by (apply Qmult_le_compat_r; lra).
  lra.
Qed.


(** *** The rate that the limiter enforces *)

(** One [check] spends what it allows out of what was available. *)
Lemma check_spends rl a clock key :
  (0 <= _refill_rate rl)%Q ->
  0 <= call_cost a ->
  (clock <= call_created a)%Q ->
  (call_created a <= call_now a)%Q ->
  (inject_Z (if (check_call _get_client_key rl a).2
                && bool_decide (_get_client_key (call_request a) = key)
             then call_cost a else 0)
   + available (check_call _get_client_key rl a).1 key (call_now a)
   <= available rl key clock + _refill_rate rl * (call_now a - clock))%Q.
Proof.
  intros Hrate Hcost Hc1 Hc2. unfold check_call.
  rewrite check_spec. cbn zeta. cbn [fst snd].
  set (A0 := available rl key clock).
  set (M := inject_Z (_max_tokens rl)). set (r := _refill_rate rl) in *.
  assert (HcostQ : (0 <= inject_Z (call_cost a))%Q).
  { change 0%Q with (inject_Z 0). by rewrite <- Zle_Qle. }
  assert (Hstep : (0 <= (call_now a - clock) * r)%Q)
    by (apply Qmult_le_0_compat; lra).
  destruct (decide (_get_client_key (call_request a) = key)) as [Hk|Hk].
  - rewrite (bool_decide_eq_true_2 _ Hk), andb_true_r. rewrite Hk.
    set (b0 := default _ (_buckets rl !! key)).
    set (b1 := _refill rl b0 (call_now a)).
    assert (Ht1 : (tokens b1 <= M)%Q) by apply Q.le_min_l.
    assert (Hlr : last_refill b1 = call_now a) by done.
    assert (Hold : (tokens b1 <= A0 + r * (call_now a - clock))%Q).
    { subst b1 b0 A0. unfold available. cbn [_refill tokens]. fold M r.
      destruct (_buckets rl !! key) as [b|];
        cbn [default from_option id tokens last_refill].
      - destruct (Q.min_spec M (tokens b + (clock - last_refill b) * r))
          as [[? ->]|[? ->]];
        destruct (Q.min_spec M (tokens b + (call_now a - last_refill b) * r))
          as [[? ->]|[? ->]]; lra.
      - destruct (Q.min_spec M (M + (clock - clock) * r)) as [[? ->]|[? ->]];
        destruct (Q.min_spec M (M + (call_now a - call_created a) * r))
          as [[? ->]|[? ->]]; lra. }
    clearbody b1 A0. clear b0.
    destruct (Qle_bool (inject_Z (call_cost a)) (tokens b1)) eqn:Hle;
      unfold available; rewrite store_lookup, decide_True by done;
      cbn [store _max_tokens _refill_rate default from_option id _refill
           tokens last_refill]; fold M r.
    + destruct (Q.min_spec M (tokens b1 - inject_Z (call_cost a)
                              + (call_now a - call_now a) * r))
        as [[? ->]|[? ->]]; lra.
    + rewrite Hlr.
      destruct (Q.min_spec M (tokens b1 + (call_now a - call_now a) * r))
        as [[? ->]|[? ->]]; change (inject_Z 0) with 0%Q; lra.
  - rewrite (bool_decide_eq_false_2 _ Hk), andb_false_r.
    change (inject_Z 0) with 0%Q.
    assert (Hav : (available
                     (store rl (_get_client_key (call_request a))
                        (if Qle_bool (inject_Z (call_cost a))
                              (tokens (_refill rl
                                 (default (mk_bucket M (call_created a))
                                    (_buckets rl !! _get_client_key (call_request a)))
                                 (call_now a)))
                         then mk_bucket
                                (tokens (_refill rl
                                   (default (mk_bucket M (call_created a))
                                      (_buckets rl !! _get_client_key (call_request a)))
                                   (call_now a)) - inject_Z (call_cost a))
                                (call_now a)
                         else _refill rl
                                (default (mk_bucket M (call_created a))
                                   (_buckets rl !! _get_client_key (call_request a)))
                                (call_now a)))
                     key (call_now a)
                   <= A0 + r * (call_now a - clock))%Q).
    { set (b' := if Qle_bool _ _ then _ else _). clearbody b'.
      subst A0. unfold available. rewrite store_lookup, decide_False by done.
      cbn [store _max_tokens _refill_rate _refill tokens]. fold M r.
      destruct (_buckets rl !! key) as [b|];
        cbn [default from_option id tokens last_refill].
      + destruct (Q.min_spec M (tokens b + (clock - last_refill b) * r))
          as [[? ->]|[? ->]];
        destruct (Q.min_spec M (tokens b + (call_now a - last_refill b) * r))
          as [[? ->]|[? ->]]; lra.
      + destruct (Q.min_spec M (M + (clock - clock) * r)) as [[? ->]|[? ->]];
        destruct (Q.min_spec M (M + (call_now a - call_now a) * r))
          as [[? ->]|[? ->]]; lra. }
    lra.
Qed.

Lemma available_within_bounds rl key clock :
  0 <= _max_tokens rl ->
  (0 <= _refill_rate rl)%Q ->
  within_bounds rl clock ->
  (0 <= available rl key clock)%Q
  /\ (available rl key clock <= inject_Z (_max_tokens rl))%Q.
Proof.
  intros Hmax Hrate Hin. unfold available. cbn [_refill tokens].
  assert (HmaxQ : (0 <= inject_Z (_max_tokens rl))%Q).
  { change 0%Q with (inject_Z 0). by rewrite <- Zle_Qle. }
  split; [|apply Q.le_min_l]. apply Q.min_glb; [done|].
  destruct (_buckets rl !! key) as [b|] eqn:Hb;
    cbn [default from_option id tokens last_refill].
  - destruct (Hin key b Hb) as (? & ? & ?).
    assert (0 <= (clock - last_refill b) * _refill_rate rl)%Q
      by (apply Qmult_le_0_compat; lra).
    lra.
  - assert (0 <= (clock - clock) * _refill_rate rl)%Q
      by (apply Qmult_le_0_compat; lra).
    lra.
Qed.

Lemma checks_spend calls : forall rl start key,
  0 <= _max_tokens rl ->
  (0 <= _refill_rate rl)%Q ->
  Forall (fun a => 0 <= call_cost a) calls ->
  clock_advances start calls ->
  within_bounds rl start ->
  (inject_Z (admitted_cost _get_client_key key calls
                           (checks _get_client_key rl calls).2)
   <= available rl key start
      + _refill_rate rl * (last_clock start calls - start))%Q.
Proof.
  induction calls as [|a calls IH]; intros rl start key Hmax Hrate Hcosts Hclock Hin.
  - cbn [admitted_cost checks snd last_clock]. change (inject_Z 0) with 0%Q.
    destruct (available_within_bounds rl key start Hmax Hrate Hin) as [H0 _].
    assert (E : (_refill_rate rl * (start - start) == 0)%Q) by ring.
    rewrite E. lra.
  - apply Forall_cons in Hcosts as [Hcost Hcosts].
    cbn [clock_advances] in Hclock. destruct Hclock as (Hc1 & Hc2 & Hclock).
    pose proof (check_spends rl a start key Hrate Hcost Hc1 Hc2) as Hstep.
    pose proof (check_within_bounds rl a start
                  Hmax Hrate Hcost Hc1 Hc2 Hin) as Hin1.
    assert (Hcfg : _max_tokens (check_call _get_client_key rl a).1 = _max_tokens rl
                   /\ _refill_rate (check_call _get_client_key rl a).1
                      = _refill_rate rl).
    { unfold check_call. by rewrite check_spec. }
    destruct Hcfg as [Hm Hr].
    cbn [checks last_clock].
    destruct (check_call _get_client_key rl a) as [rl1 ok].
    cbn [fst snd] in *.
    specialize (IH rl1 (call_now a) key).
    destruct (checks _get_client_key rl1 calls) as [rl2 rest].
    cbn [snd admitted_cost] in *. rewrite inject_Z_plus.
    assert (Hclock_le : (call_now a <= last_clock (call_now a) calls)%Q).
    { clear -Hclock. revert Hclock. generalize (call_now a).
      induction calls as [|a' calls IH']; intros q Hq; cbn [last_clock].
      - lra.
      - cbn [clock_advances] in Hq. destruct Hq as (? & ? & Hq).
        apply IH' in Hq. lra. }
    assert (IH' := IH ltac:(lia) ltac:(by rewrite Hr) Hcosts Hclock Hin1).
    rewrite Hr in IH'. lra.
Qed.

(** X26.  The rate that the limiter enforces.  On a limiter within its
    bounds, with a capacity, a refill rate and costs that are not negative
    and a clock that does not go back, the cost that any one client is
    allowed to spend in a sequence of [check] calls is at most the capacity
    plus the refill rate times the time the sequence takes. *)
Theorem admitted_cost_is_bounded rl calls start key :
  0 <= _max_tokens rl ->
  (0 <= _refill_rate rl)%Q ->
  Forall (fun a => 0 <= call_cost a) calls ->
  clock_advances start calls ->
  within_bounds rl start ->
  (inject_Z (admitted_cost _get_client_key key calls
                           (checks _get_client_key rl calls).2)
   <= inject_Z (_max_tokens rl)
      + _refill_rate rl * (last_clock start calls - start))%Q.
Proof.
  intros Hmax Hrate Hcosts Hclock Hin.
  pose proof (checks_spend calls rl start key Hmax Hrate Hcosts Hclock Hin).
  destruct (available_within_bounds rl key start Hmax Hrate Hin) as [_ H1].
  lra.
Qed.

End Facts.

Local Open Scope string_scope.
Local Open Scope list_scope.

Lemma clients_are_isolated_witness :
  let rl := init 10 (1 # 2) 60 in
  let rl1 := (check key_of rl "a" 1 0 0).1 in
  _buckets rl1 !! key_of "b" = _buckets rl !! key_of "b"
  /\ (check key_of rl1 "b" 1 3 3).2 = (check key_of rl "b" 1 3 3).2
  /\ _buckets (check key_of rl1 "b" 1 3 3).1 !! key_of "b"
     = _buckets (check key_of rl "b" 1 3 3).1 !! key_of "b".
Proof.
  apply (clients_are_isolated key_of (init 10 (1 # 2) 60) "a" 1 0 0 "b" 1 3 3).
  discriminate.
Defined.

Lemma tokens_stay_within_bounds_witness :
  let rl := init 10 (1 # 2) 60 in
  let calls := [mk_call "a" 1 0 0; mk_call "a" 3 0 4; mk_call "b" 20 5 6] in
  let b := default (mk_bucket 0 0) (_buckets (checks key_of rl calls).1 !! "a") in
  (0 <= tokens b)%Q /\ (tokens b <= inject_Z (_max_tokens rl))%Q.
Proof.
  apply (tokens_stay_within_bounds key_of (init 10 (1 # 2) 60)
           [mk_call "a" 1 0 0; mk_call "a" 3 0 4; mk_call "b" 20 5 6] 0)
    with (key := "a").
  - simpl. lia.
  - unfold Qle. simpl. lia.
  - repeat constructor; simpl; lia.
  - simpl. unfold Qle. simpl. lia.
  - intros key b H. simpl in H. rewrite lookup_empty in H. discriminate H.
  - reflexivity.
Defined.

Lemma burst_is_capacity_witness :
  (checks key_of (init 10 (1 # 2) 60) (replicate 12 (mk_call "a" 1 7 7))).2
  = replicate 10 true ++ replicate 2 false.
Proof.
  apply (burst_is_capacity key_of (init 10 (1 # 2) 60) "a" 7 12).
  reflexivity.
Defined.

Lemma cost_above_capacity_is_refused_witness :
  let rl := init 5 (1 # 10) 60 in
  (check key_of rl "a" 6 0 1000).2 = false
  /\ forall b,
       _buckets (check key_of rl "a" 6 0 1000).1 !! key_of "a" = Some b ->
       (tokens b <= inject_Z (_max_tokens rl))%Q /\ last_refill b = 1000%Q.
Proof.
  apply (cost_above_capacity_is_refused key_of (init 5 (1 # 10) 60) "a" 6 0 1000).
  simpl. lia.
Defined.


Lemma remaining_predicts_check_witness :
  let rl := init 10 (1 # 2) 60 in
  let rl1 := (get_remaining key_of rl "a" 0 0).1 in
  let remaining := (get_remaining key_of rl "a" 0 0).2 in
  ((check key_of rl1 "a" 3 0 0).2 = true <-> 3 <= remaining)
  /\ (check key_of rl1 "a" 3 0 0).2 = (check key_of rl "a" 3 0 0).2.
Proof.
  apply (remaining_predicts_check key_of (init 10 (1 # 2) 60) "a" 0 0 0 3 0).
  - simpl. lia.
  - unfold Qle. simpl. lia.
  - intros key b H. simpl in H. rewrite lookup_empty in H. discriminate H.
  - unfold Qle. simpl. lia.
  - unfold Qle. simpl. lia.
Defined.

Lemma new_clients_are_admitted_witness :
  (checks key_of (init 10 (1 # 2) 60)
          [mk_call "a" 1 0 0; mk_call "b" 10 0 1; mk_call "c" 2 1 1]).2
  = replicate 3 true.
Proof.
  apply (new_clients_are_admitted key_of
           [mk_call "a" 1 0 0; mk_call "b" 10 0 1; mk_call "c" 2 1 1]
           (init 10 (1 # 2) 60)).
  - unfold Qle. simpl. lia.
  - apply (bool_decide_unpack _). vm_compute. reflexivity.
  - repeat constructor; simpl; try lia; unfold Qle; simpl; lia.
Defined.

Lemma cleanup_keeps_answers_witness :
  let rl := mk 10 (1 # 2) 60 {["c" := mk_bucket 0 0]} in
  let calls := [mk_call "c" 10 1000 1000; mk_call "c" 1 1000 1001] in
  (checks key_of (cleanup rl 1000).1 calls).2 = (checks key_of rl calls).2.
Proof.
  apply (cleanup_keeps_answers key_of
           (mk 10 (1 # 2) 60 {["c" := mk_bucket 0 0]}) 1000
           [mk_call "c" 10 1000 1000; mk_call "c" 1 1000 1001]).
  - unfold Qle. simpl. lia.
  - unfold Qle. simpl. lia.
  - intros key b H. simpl in H. apply lookup_singleton_Some in H as [_ <-].
    simpl. unfold Qle. simpl. lia.
  - simpl. unfold Qle. simpl. lia.
Defined.

Lemma admitted_cost_is_bounded_witness :
  let rl := init 10 (1 # 2) 60 in
  let calls := [mk_call "a" 7 0 0; mk_call "b" 3 0 1; mk_call "a" 4 1 2;
                mk_call "a" 4 2 4] in
  (inject_Z (admitted_cost key_of "a" calls (checks key_of rl calls).2)
   <= inject_Z (_max_tokens rl)
      + _refill_rate rl * (last_clock 0 calls - 0))%Q.
Proof.
  apply (admitted_cost_is_bounded key_of (init 10 (1 # 2) 60)
           [mk_call "a" 7 0 0; mk_call "b" 3 0 1; mk_call "a" 4 1 2;
            mk_call "a" 4 2 4] 0 "a").
  - simpl. lia.
  - unfold Qle. simpl. lia.
  - repeat constructor; simpl; lia.
  - simpl. unfold Qle. simpl. lia.
  - intros key b H. simpl in H. rewrite lookup_empty in H. discriminate H.
Defined.

(** The limiters that the application makes (chat, upload, general) refill
    a bucket within ten windows. *)
Example configured_limiters_refill_within_ten_windows :
  Forall (fun rl : t =>
            (inject_Z (_max_tokens rl)
             <= inject_Z (_window_seconds rl * 10) * _refill_rate rl)%Q)
         [init 10 (1 # 2) 60; init 5 (1 # 10) 60; init 30 2 60].
Proof. repeat constructor; unfold Qle; simpl; lia. Qed.

(** The buckets that [cleanup] removes and keeps in a run: the bucket idle
    for 1000 seconds goes, the one refilled 10 seconds ago stays. *)
Example cleanup_run :
  let rl := mk 10 (1 # 2) 60
               {["old" := mk_bucket 0 0; "new" := mk_bucket 3 990]} in
  (cleanup rl 1000).2 = 1
  /\ _buckets (cleanup rl 1000).1 = {["new" := mk_bucket 3 990]}.
Proof. split; reflexivity. Qed.

End RateLimiterMoreFacts.

(** ** The rate limiting of the chat routes *)

Module ChatRouteFacts.
Import RateLimiter RateLimiterOps ChatRoute RateLimiterMoreFacts.
Section Facts.

Context {Request : Type}.
Variable _get_client_key : Request -> string.
Implicit Types (rl : t) (request : Request).

(** The route on a limiter whose bucket for the client was refilled at
    [now0] and holds less than one token. *)
Lemma rate_limit_spec rl request t1 now0 created now :
  (0 < _refill_rate rl)%Q ->
  1 <= _max_tokens rl ->
  _buckets rl !! _get_client_key request = Some (mk_bucket t1 now0) ->
  (t1 < 1)%Q ->
  let d := ((1 - t1) / _refill_rate rl)%Q in
  ((now0 + d <= now)%Q ->
     exists rl2, rate_limit _get_client_key rl request created now
                 = Returned rl2 Proceed)
  /\ ((now < now0 + d)%Q ->
        exists rl2 h, rate_limit _get_client_key rl request created now
                      = Returned rl2 (TooManyRequests h)).
Proof.
  intros Hrate Hmax Hb Ht d.
  destruct (retry_after_spec _get_client_key rl request 1 t1 now0 Hrate Hmax Hb Ht)
    as (_ & _ & Hck).
  specialize (Hck created now). unfold rate_limit.
  destruct (check _get_client_key rl request 1 created now) as [rl2 ok] eqn:E.
  cbn [snd] in Hck. split.
  - intros Hlate. apply Hck in Hlate. subst ok. by eexists.
  - intros Hearly. destruct ok.
    { assert (now0 + d <= now)%Q by by apply Hck. subst d. lra. }
    apply refused_check in E as (t2 & Ht2 & Hb2 & Hm2 & Hr2).
    destruct (retry_after_spec _get_client_key rl2 request 1 t2 now)
      as (_ & Hra & _); [by rewrite Hr2 | by rewrite Hm2 | done | done |].
    rewrite Hra. by do 2 eexists.
Qed.

(** X19.  The [Retry-After] header.  When the route answers 429, on a
    limiter with a positive refill rate and room for one token, the header
    carries a number [h >= 0] of whole seconds such that a request of the
    same client made less than [h] seconds after the refused one is answered
    429 again, and a request made [h + 1] seconds after it, or later, goes
    through. *)
Theorem retry_after_header_is_honoured rl request created now0 rl1 h :
  (0 < _refill_rate rl)%Q ->
  1 <= _max_tokens rl ->
  rate_limit _get_client_key rl request created now0
  = Returned rl1 (TooManyRequests h) ->
  0 <= h
  /\ (forall created1 now,
        (now < now0 + inject_Z h)%Q ->
        exists rl2 h', rate_limit _get_client_key rl1 request created1 now
                       = Returned rl2 (TooManyRequests h'))
  /\ (forall created1 now,
        (now0 + inject_Z h + 1 <= now)%Q ->
        exists rl2, rate_limit _get_client_key rl1 request created1 now
                    = Returned rl2 Proceed).
Proof.
  intros Hrate Hmax. unfold rate_limit at 1.
  destruct (check _get_client_key rl request 1 created now0) as [rl' ok] eqn:E.
  destruct ok; [done|].
  apply refused_check in E as (t1 & Ht1 & Hb & Hm & Hr).
  rewrite <- Hr in Hrate. rewrite <- Hm in Hmax.
  destruct (retry_after_spec _get_client_key rl' request 1 t1 now0 Hrate Hmax Hb Ht1)
    as (Hd & Hra & _).
  rewrite Hra. intros [= <- <-]. change (inject_Z 1) with 1%Q in *.
  set (d := ((1 - t1) / _refill_rate rl')%Q) in *.
  assert (Hh : py_int d = Qfloor d).
  { unfold py_int. assert (Qle_bool 0 d = true) as ->; [|done].
    apply Qle_bool_iff. lra. }
  rewrite Hh.
  assert (H0 : 0 <= Qfloor d).
  { assert (inject_Z 0 <= d)%Q as H%Qfloor_resp_le
      by (change (inject_Z 0) with 0%Q; lra).
    by rewrite Qfloor_Z in H. }
  pose proof (Qfloor_le d) as Hlo. pose proof (Qlt_floor d) as Hhi.
  rewrite inject_Z_plus in Hhi. change (inject_Z 1) with 1%Q in Hhi.
  split; [done|].
  split; intros created1 now Hnow;
    apply (rate_limit_spec rl' request t1 now0 created1 now Hrate Hmax Hb Ht1);
    fold d; lra.
Qed.

End Facts.

Local Open Scope string_scope.
Local Open Scope list_scope.

Lemma retry_after_header_is_honoured_witness :
  let rl := mk 10 (1 # 2) 60 {["c" := mk_bucket (1 # 4) 0]} in
  let rl1 := (check key_of rl "c" 1 0 0).1 in
  0 <= 1
  /\ (forall created1 now,
        (now < 0 + inject_Z 1)%Q ->
        exists rl2 h', rate_limit key_of rl1 "c" created1 now
                       = Returned rl2 (TooManyRequests h'))
  /\ (forall created1 now,
        (0 + inject_Z 1 + 1 <= now)%Q ->
        exists rl2, rate_limit key_of rl1 "c" created1 now = Returned rl2 Proceed).
Proof.
  apply (retry_after_header_is_honoured key_of
           (mk 10 (1 # 2) 60 {["c" := mk_bucket (1 # 4) 0]}) "c" 0 0).
  - reflexivity.
  - simpl. lia.
  - reflexivity.
Defined.

End ChatRouteFacts.

(** ** The client key *)

Module ClientKeyFacts.
Import ClientKey.

Implicit Types (l pre post core : list Ascii.ascii) (request : Request).

Lemma Forall_on_rev {A} (P : A -> Prop) (l : list A) :
  Forall P l -> Forall P (rev l).
Proof.
  rewrite !Forall_forall. intros H x Hx. apply H.
  by apply list_elem_of_In, in_rev, list_elem_of_In in Hx.
Qed.

Lemma lstrip_spec l :
  exists pre,
    l = pre ++ lstrip l
    /\ Forall (fun c => is_space c = true) pre
    /\ (forall c rest, lstrip l = c :: rest -> is_space c = false).
Proof.
  induction l as [|a l (pre & Hl & Hpre & Hhead)]; cbn [lstrip].
  - exists []. by split_and!.
  - destruct (is_space a) eqn:Ha.
    + exists (a :: pre). split_and!; [by rewrite Hl at 1 | by constructor | done].
    + exists []. split_and!; [done | done |]. by intros c rest [= <- _].
Qed.

Lemma lstrip_spaces pre l :
  Forall (fun c => is_space c = true) pre -> lstrip (pre ++ l) = lstrip l.
Proof. induction 1 as [|c pre Hc _ IH]; [done|]. cbn. by rewrite Hc. Qed.

Lemma lstrip_all_spaces pre :
  Forall (fun c => is_space c = true) pre -> lstrip pre = [].
Proof. intros H. rewrite <- (app_nil_r pre). by rewrite lstrip_spaces. Qed.

Lemma lstrip_app l post :
  lstrip l <> [] -> lstrip (l ++ post) = lstrip l ++ post.
Proof.
  induction l as [|a l IH]; cbn [lstrip app]; [done|].
  destruct (is_space a); [done|]. done.
Qed.

(** [strip] cuts the white space at both ends, and nothing else. *)
Lemma strip_spec l :
  exists pre post,
    l = pre ++ strip l ++ post
    /\ Forall (fun c => is_space c = true) pre
    /\ Forall (fun c => is_space c = true) post
    /\ (forall c rest, strip l = c :: rest -> is_space c = false)
    /\ (forall c rest, strip l = rest ++ [c] -> is_space c = false).
Proof.
  unfold strip.
  destruct (lstrip_spec l) as (pre & Hl & Hpre & Hhead).
  destruct (lstrip_spec (rev (lstrip l))) as (post' & Hr & Hpost & Hlast).
  set (m := lstrip (rev (lstrip l))) in *.
  assert (Hl1 : lstrip l = rev m ++ rev post').
  { rewrite <- rev_app_distr, <- Hr. by rewrite rev_involutive. }
  exists pre, (rev post'). split_and!.
  - by rewrite <- Hl1.
  - done.
  - by apply Forall_on_rev.
  - intros c rest Hm. apply (Hhead c (rest ++ rev post')).
    by rewrite Hl1, Hm.
  - intros c rest Hm. apply (Hlast c (rev rest)).
    rewrite <- (rev_involutive m), Hm, rev_app_distr. done.
Qed.

Lemma strip_padding pre core post :
  Forall (fun c => is_space c = true) pre ->
  Forall (fun c => is_space c = true) post ->
  strip (pre ++ core ++ post) = strip core.
Proof.
  intros Hpre Hpost. unfold strip. rewrite lstrip_spaces by done.
  destruct (lstrip core) as [|c rest] eqn:Hc.
  - assert (Hcore : Forall (fun c => is_space c = true) core).
    { destruct (lstrip_spec core) as (p & Hp & Hsp & _).
      rewrite Hc, app_nil_r in Hp. by subst p. }
    rewrite <- (app_nil_r (core ++ post)), lstrip_spaces; [done|].
    by apply Forall_app.
  - rewrite lstrip_app by by rewrite Hc.
    rewrite Hc, rev_app_distr, lstrip_spaces; [done|]. by apply Forall_on_rev.
Qed.

Lemma first_entry_spec l :
  (comma ∉ first_entry l)
  /\ exists rest,
       l = first_entry l ++ rest
       /\ (rest = [] \/ exists hops, rest = comma :: hops).
Proof.
  induction l as [|a l (Hno & rest & Hl & Hrest)]; cbn [first_entry].
  - split; [apply not_elem_of_nil|]. exists []. split; [done | by left].
  - destruct (Ascii.eqb a comma) eqn:Ha.
    + apply Ascii.eqb_eq in Ha as ->. split; [apply not_elem_of_nil|].
      exists (comma :: l). split; [done | right; by eexists].
    + apply Ascii.eqb_neq in Ha. split.
      * by intros [?|?]%elem_of_cons.
      * exists rest. split; [by rewrite Hl at 1 | done].
Qed.

Lemma first_entry_until_comma l hops :
  (comma ∉ l) -> first_entry (l ++ comma :: hops) = l.
Proof.
  induction l as [|a l IH]; intros Hno; cbn [first_entry app].
  - by rewrite Ascii.eqb_refl.
  - apply not_elem_of_cons in Hno as [Hne Hno].
    destruct (Ascii.eqb a comma) eqn:Ha; [by apply Ascii.eqb_eq in Ha|].
    by rewrite IH.
Qed.

Lemma first_entry_without_comma l : (comma ∉ l) -> first_entry l = l.
Proof.
  induction l as [|a l IH]; intros Hno; cbn [first_entry]; [done|].
  apply not_elem_of_cons in Hno as [Hne Hno].
  destruct (Ascii.eqb a comma) eqn:Ha; [by apply Ascii.eqb_eq in Ha|].
    by rewrite IH.
Qed.

Lemma spaces_without_comma l :
  Forall (fun c => is_space c = true) l -> (comma ∉ l).
Proof.
  rewrite Forall_forall. intros H Hin. by apply H in Hin.
Qed.

(** X20.  The key of a request that carries a non-empty [X-Forwarded-For]
    header is the text of the header before its first comma, without the
    white space at its two ends: it contains no comma, does not begin or end
    with white space, and what was cut off is white space only. *)
Theorem forwarded_key_is_trimmed_first_entry request a s :
  x_forwarded_for request = Some (String a s) ->
  let header := String.list_ascii_of_string (String a s) in
  let key := String.list_ascii_of_string (_get_client_key request) in
  (exists pre post hops,
     (header = pre ++ key ++ post \/ header = pre ++ key ++ post ++ comma :: hops)
     /\ Forall (fun c => is_space c = true) pre
     /\ Forall (fun c => is_space c = true) post)
  /\ (comma ∉ key)
  /\ (forall c rest, key = c :: rest -> is_space c = false)
  /\ (forall c rest, key = rest ++ [c] -> is_space c = false).
Proof.
  intros Hh header key. subst key. unfold _get_client_key. rewrite Hh.
  fold header. rewrite String.list_ascii_of_string_of_list_ascii.
  destruct (first_entry_spec header) as (Hno & rest & Hheader & Hrest).
  destruct (strip_spec (first_entry header))
    as (pre & post & Hfe & Hpre & Hpost & Hhead & Hlast).
  split_and!; [| | done | done].
  - exists pre, post.
    destruct Hrest as [->|[hops ->]].
    + exists []. split_and!; [|done|done].
      left. rewrite app_nil_r in Hheader. by rewrite <- Hfe.
    + exists hops. split_and!; [|done|done].
      right. rewrite Hheader at 1. rewrite Hfe at 1.
      by rewrite <- !app_assoc.
  - intros Hin. apply Hno. rewrite Hfe.
    apply elem_of_app. right. apply elem_of_app. by left.
Qed.

(** X21.  Padding, later hops and the connection do not change the key.  A
    request whose header is one entry, and a request whose header starts
    with the same entry surrounded by white space and goes on with a comma
    and anything else, have the same key, whatever their hosts are. *)
Theorem padding_and_hops_keep_the_key request1 request2 a s pre post hops :
  x_forwarded_for request1 = Some (String a s) ->
  (comma ∉ String.list_ascii_of_string (String a s)) ->
  Forall (fun c => is_space c = true) pre ->
  Forall (fun c => is_space c = true) post ->
  x_forwarded_for request2
  = Some (String.string_of_list_ascii
            (pre ++ String.list_ascii_of_string (String a s) ++ post
                 ++ comma :: hops)) ->
  _get_client_key request2 = _get_client_key request1.
Proof.
  intros H1 Hno Hpre Hpost H2. unfold _get_client_key. rewrite H1, H2.
  set (entry := String.list_ascii_of_string (String a s)) in *.
  destruct (String.string_of_list_ascii _) as [|a2 s2] eqn:E.
  { apply (f_equal String.list_ascii_of_string) in E.
    rewrite String.list_ascii_of_string_of_list_ascii in E.
    apply (f_equal length) in E. rewrite !length_app in E.
    subst entry. cbn in E. lia. }
  rewrite <- E, String.list_ascii_of_string_of_list_ascii.
  rewrite (first_entry_without_comma entry) by done.
  replace (pre ++ entry ++ post ++ comma :: hops)
    with ((pre ++ entry ++ post) ++ comma :: hops) by by rewrite <- !app_assoc.
  rewrite first_entry_until_comma.
  - by rewrite strip_padding.
  - rewrite !not_elem_of_app. split_and!; [|done|]; by apply spaces_without_comma.
Qed.

Local Open Scope string_scope.
Local Open Scope list_scope.

Lemma forwarded_key_is_trimmed_first_entry_witness :
  let request := mk_request (Some " 10.1.2.3 , 172.16.0.1") (Some "127.0.0.1") in
  let header := String.list_ascii_of_string " 10.1.2.3 , 172.16.0.1" in
  let key := String.list_ascii_of_string (_get_client_key request) in
  (exists pre post hops,
     (header = pre ++ key ++ post \/ header = pre ++ key ++ post ++ comma :: hops)
     /\ Forall (fun c => is_space c = true) pre
     /\ Forall (fun c => is_space c = true) post)
  /\ (comma ∉ key)
  /\ (forall c rest, key = c :: rest -> is_space c = false)
  /\ (forall c rest, key = rest ++ [c] -> is_space c = false).
Proof.
  apply (forwarded_key_is_trimmed_first_entry
           (mk_request (Some " 10.1.2.3 , 172.16.0.1") (Some "127.0.0.1"))).
  reflexivity.
Defined.

Lemma padding_and_hops_keep_the_key_witness :
  _get_client_key (mk_request (Some "  10.1.2.3 ,172.16.0.1") (Some "127.0.0.1"))
  = _get_client_key (mk_request (Some "10.1.2.3") None).
Proof.
  apply (padding_and_hops_keep_the_key
           (mk_request (Some "10.1.2.3") None)
           (mk_request (Some "  10.1.2.3 ,172.16.0.1") (Some "127.0.0.1"))
           (Ascii.ascii_of_nat 49) "0.1.2.3"
           (String.list_ascii_of_string "  ")
           (String.list_ascii_of_string " ")
           (String.list_ascii_of_string "172.16.0.1")).
  - reflexivity.
  - apply (bool_decide_unpack _). vm_compute. reflexivity.
  - repeat constructor.
  - repeat constructor.
  - reflexivity.
Defined.

(** The key in three runs: the header wins over the connection, an empty
    header does not, and without either the key is ["unknown"]. *)
Example client_keys :
  _get_client_key (mk_request (Some " 10.1.2.3 , 172.16.0.1") (Some "127.0.0.1"))
  = "10.1.2.3"
  /\ _get_client_key (mk_request (Some "") (Some "127.0.0.1")) = "127.0.0.1"
  /\ _get_client_key (mk_request None None) = "unknown"
  /\ _get_client_key (mk_request (Some " ,10.1.2.3") (Some "127.0.0.1")) = "".
Proof. by split_and!. Qed.

End ClientKeyFacts.

(** ** More on the inference queue *)

Module InferenceQueueMoreFacts.
Import InferenceQueue InferenceQueueRuns InferenceQueueFacts.
Section Facts.

Context {Any : Type}.
Implicit Types (st : state Any) (item it : QueueItem Any) (r : completion Any).
Implicit Types (works : list (string * (unit -> completion Any))).

Lemma room_not_full (q : AsyncQueue Any) k :
  maxsize q <= 0 \/ qsize q + k <= maxsize q -> 1 <= k -> full q = false.
Proof.
  intros Hroom Hk. unfold full.
  destruct (Z.leb_spec (maxsize q) 0); [done|].
  rewrite Z.geb_leb. apply Z.leb_gt. lia.
Qed.

(** Callers that find room are all queued, in the order of their calls,
    each with a future of its own. *)
Lemma submit_all_accepted works : forall st,
  healthy st ->
  (maxsize (_queue (self st)) <= 0
   \/ qsize (_queue (self st)) + Z.of_nat (length works)
      <= maxsize (_queue (self st))) ->
  exists st1 new,
    submit_all st works = (st1, map (fun it => inl (future it)) new)
    /\ healthy st1
    /\ items (_queue (self st1)) = items (_queue (self st)) ++ new
    /\ map (fun it => (id it, coroutine_factory it)) new = works
    /\ _total_processed (self st1) = _total_processed (self st)
    /\ _total_errors (self st1) = _total_errors (self st).
Proof.
  induction works as [|[task_id factory] works IH]; intros st Hh Hroom.
  - exists st, []. cbn. rewrite app_nil_r. by split_and!.
  - cbn [length] in Hroom.
    assert (Hfull : full (_queue (self st)) = false)
      by (apply (room_not_full _ (Z.of_nat (S (length works)))); lia).
    pose proof (submit_accepted st task_id factory Hfull) as Hs.
    cbn zeta in Hs. cbn [submit_all]. rewrite Hs.
    destruct (submit_healthy st task_id factory _ _ Hh Hs) as (Hh1 & _ & _ & Hit1).
    set (st1 := mk_state _ _) in *.
    destruct (IH st1 Hh1) as (st2 & new & Hall & Hh2 & Hit2 & Hw & Hp & He).
    { subst st1. unfold qsize in *.
      cbn [self _queue with_queue maxsize items]. rewrite length_app.
      cbn [length]. lia. }
    rewrite Hall.
    exists st2, (mk_item task_id factory (fresh (dom (futures st))) :: new).
    split_and!; [done | done | | | done | done].
    + rewrite Hit2, Hit1, <- app_assoc. done.
    + cbn [map id coroutine_factory]. by rewrite Hw.
Qed.

Lemma filter_map_length {A B} (p : B -> bool) (g : A -> B) (l : list A) :
  length (List.filter (fun x => p (g x)) l) = length (List.filter p (map g l)).
Proof.
  induction l as [|x l IH]; [done|]. cbn [List.filter map].
  destruct (p (g x)); cbn [length]; by rewrite IH.
Qed.

(** X22.  Submitted work comes back to its caller.  On a healthy queue
    with room for them, callers that submit work which returns or raises an
    [Exception] each get a future of their own and wait on it; once the
    worker has gone through the queue, every caller's [await] gives the
    completion of that caller's own work, and [total_processed] and
    [total_errors] have grown by the numbers of results and of errors. *)
Theorem submitted_work_comes_back st works turns :
  healthy st ->
  Forall (fun it => catchable (coroutine_factory it tt) = true)
         (items (_queue (self st))) ->
  Forall (fun w => catchable (w.2 tt) = true) works ->
  (maxsize (_queue (self st)) <= 0
   \/ qsize (_queue (self st)) + Z.of_nat (length works)
      <= maxsize (_queue (self st))) ->
  (length (items (_queue (self st))) + length works < turns)%nat ->
  exists st1 handles st2,
    submit_all st works = (st1, map inl handles)
    /\ NoDup handles
    /\ _worker turns st1 = Returned st2 Parked
    /\ items (_queue (self st2)) = []
    /\ Forall2 (fun w f => await_future (futures st1) f = None
                           /\ await_future (futures st2) f = Some (w.2 tt))
               works handles
    /\ _total_processed (self st2) - _total_processed (self st)
       = returned_count (map (fun it => coroutine_factory it tt)
                             (items (_queue (self st)))
                         ++ map (fun w => w.2 tt) works)
    /\ _total_errors (self st2) - _total_errors (self st)
       = raised_count (map (fun it => coroutine_factory it tt)
                           (items (_queue (self st)))
                       ++ map (fun w => w.2 tt) works).
Proof.
  intros Hh Hold Hnew Hroom Hturns.
  destruct (submit_all_accepted works st Hh Hroom)
    as (st1 & new & Hall & Hh1 & Hit1 & Hw & Hp1 & He1).
  assert (Hlen : length new = length works).
  { by rewrite <- Hw, length_map. }
  assert (Hc : Forall (fun it => catchable (coroutine_factory it tt) = true)
                      (items (_queue (self st)) ++ new)).
  { apply Forall_app. split; [done|]. subst works.
    rewrite Forall_forall in Hnew. rewrite Forall_forall. intros it Hin.
    apply (Hnew (id it, coroutine_factory it)).
    apply list_elem_of_fmap. eauto. }
  destruct (worker_drains _ st1 turns Hh1 Hit1 Hc)
    as (st2 & Hwk & Hempty & _ & Hown & _ & He & Hp).
  { rewrite length_app. lia. }
  exists st1, (map future new), st2.
  split_and!; [| | done | done | | |].
  - rewrite Hall. by rewrite map_map.
  - pose proof (healthy_distinct _ Hh1) as Hnd. rewrite Hit1, map_app in Hnd.
    by apply NoDup_app in Hnd as (_ & _ & ?).
  - subst works. apply Forall2_fmap, Forall_Forall2_diag.
    rewrite Forall_forall. intros it Hin. cbn [snd].
    assert (Hin1 : it ∈ items (_queue (self st)) ++ new)
      by (apply elem_of_app; by right).
    split.
    + pose proof (healthy_pending _ Hh1) as Hpend.
      rewrite Forall_forall in Hpend. rewrite Hit1 in Hpend.
      unfold await_future. by rewrite (future_state_lookup _ _ _ (Hpend it Hin1)).
    + apply await_resolution, future_state_lookup. by apply Hown.
  - rewrite <- Hp1, Hp. unfold returned_count. do 2 f_equal.
    rewrite (filter_map_length
               (fun r => match r with Returns _ => true | Raises _ => false end)
               (fun it => coroutine_factory it tt)).
    rewrite map_app. do 3 f_equal. subst works. by rewrite map_map.
  - rewrite <- He1, He. unfold raised_count. do 2 f_equal.
    rewrite (filter_map_length
               (fun r => match r with Returns _ => false | Raises _ => true end)
               (fun it => coroutine_factory it tt)).
    rewrite map_app. do 3 f_equal. subst works. by rewrite map_map.
Qed.


(** *** Work that is cancelled, and a queue that is not running *)

(** X23.  Cancelled work.  When the work of the item at the head of the
    queue ends with an exception that is not an [Exception]
    ([CancelledError], as when [stop] cancels the worker in the middle of
    the work), the handler does not run: the exception leaves the worker,
    which ends; the [finally] block has restored [active_tasks] and called
    [task_done]; nothing is counted; and no future is resolved, so the
    caller of that item and the callers queued behind it are left
    waiting. *)
Theorem cancelled_work_leaves_callers_waiting st item rest e turns :
  healthy st ->
  items (_queue (self st)) = item :: rest ->
  coroutine_factory item tt = Raises e ->
  is_Exception e = false ->
  exists st',
    _worker (S turns) st = Raised st' e
    /\ futures st' = futures st
    /\ Forall (fun it => await_future (futures st') (future it) = None)
              (item :: rest)
    /\ items (_queue (self st')) = rest
    /\ _active_tasks (self st') = _active_tasks (self st)
    /\ unfinished_tasks (_queue (self st'))
       = unfinished_tasks (_queue (self st)) - 1
    /\ _total_processed (self st') = _total_processed (self st)
    /\ _total_errors (self st') = _total_errors (self st).
Proof.
  intros Hh Eq Hr He. pose proof Hh as [Hrun Hcnt Hnd Hpend].
  rewrite Eq in Hcnt, Hpend. cbn [length] in Hcnt.
  cbn [_worker]. rewrite Hrun, (take_cons _ _ _ Eq), Hr.
  unfold process, try_block, finally_block, task_done.
  rewrite He. cbn.
  destruct (Z.leb_spec (unfinished_tasks (_queue (self st))) 0) as [|_]; [lia|].
  eexists. split; [reflexivity|].
  cbn [futures self with_queue _queue items unfinished_tasks _active_tasks
       _total_processed _total_errors add_active].
  split_and!; [done | | done | lia | done..].
  rewrite Forall_forall in Hpend |- *. intros it Hin. unfold await_future.
  by rewrite (future_state_lookup _ _ _ (Hpend it Hin)).
Qed.

(** X24.  A queue that is not running still accepts work.  [submit] does
    not look at [_running]: on a queue that was never started, or was
    stopped, and has room, the item is queued and its caller waits; the
    worker loop takes nothing, however long it is given; after [start] the
    worker gives the caller the completion of its work. *)
Theorem submit_without_worker_waits st task_id factory turns :
  _running (self st) = false ->
  items (_queue (self st)) = [] ->
  unfinished_tasks (_queue (self st)) = 0 ->
  catchable (factory tt) = true ->
  exists st1 f st2,
    submit st task_id factory = Returned st1 f
    /\ await_future (futures st1) f = None
    /\ _worker (S turns) st1 = Returned st1 Stopped
    /\ _worker (S (S turns)) (start st1) = Returned st2 Parked
    /\ await_future (futures st2) f = Some (factory tt).
Proof.
  intros Hrun Hempty Hun Hc.
  pose proof (submit_accepted st task_id factory
                (empty_queue_not_full _ Hempty)) as Hs.
  cbn zeta in Hs. rewrite Hempty, Hun in Hs. cbn [app] in Hs.
  set (f := fresh (dom (futures st))) in *.
  set (st1 := mk_state _ _) in *.
  assert (Hh : healthy (start st1)).
  { unfold start. subst st1. cbn [self with_queue _running]. rewrite Hrun.
    split; cbn; [done | lia | apply NoDup_singleton |].
    constructor; [|constructor]. cbn. by rewrite lookup_insert_eq. }
  assert (Hit : items (_queue (self (start st1)))
                = [mk_item task_id factory f]).
  { unfold start. subst st1. cbn [self with_queue _running]. by rewrite Hrun. }
  destruct (worker_drains _ (start st1) (S (S turns)) Hh Hit)
    as (st2 & Hw & _ & _ & Hown & _).
  { by constructor. }
  { cbn. lia. }
  exists st1, f, st2. split_and!; [done | | | done |].
  - unfold await_future, future_state. subst st1. cbn [futures].
    by rewrite lookup_insert_eq.
  - cbn [_worker]. subst st1. cbn [self with_queue _running]. by rewrite Hrun.
  - apply await_resolution, future_state_lookup.
    apply (Hown (mk_item task_id factory f)). apply list_elem_of_singleton. done.
Qed.

(** *** The queue over time *)

(** The worker, given any number of turns, on a healthy queue of work that
    returns or raises an [Exception]: it ends without raising, and leaves
    the queue healthy, shorter by the items it took. *)
Lemma worker_keeps turns : forall st,
  healthy st ->
  Forall (fun it => catchable (coroutine_factory it tt) = true)
         (items (_queue (self st))) ->
  exists st' status gone,
    _worker turns st = Returned st' status
    /\ healthy st'
    /\ items (_queue (self st)) = gone ++ items (_queue (self st'))
    /\ unfinished_tasks (_queue (self st'))
       = unfinished_tasks (_queue (self st)) - Z.of_nat (length gone)
    /\ _active_tasks (self st') = _active_tasks (self st)
    /\ maxsize (_queue (self st')) = maxsize (_queue (self st))
    /\ _total_processed (self st) <= _total_processed (self st')
    /\ _total_errors (self st) <= _total_errors (self st').
Proof.
  induction turns as [|turns IH]; intros st Hh Hc.
  { exists st, OutOfFuel, []. cbn. split_and!; try done; lia. }
  cbn [_worker]. rewrite (healthy_running _ Hh).
  destruct (items (_queue (self st))) as [|item rest] eqn:Eq.
  { rewrite (take_nil _ Eq). exists st, Parked, []. rewrite Eq.
    cbn. split_and!; try done; lia. }
  apply Forall_cons in Hc as [Hc1 Hc].
  destruct (turn_spec st item rest Hh Eq Hc1)
    as (st0 & st1 & Htake & _ & Hproc & _ & Hit & Hh1 & _ & Hmx & Htp & Hte).
  pose proof Htake as Htake'. rewrite (take_cons _ _ _ Eq) in Htake'.
  injection Htake' as Hst0.
  destruct (process_spec st0 item (coroutine_factory item tt) Hc1)
    as (st1' & Hproc' & _ & _ & _ & Hun & _ & _ & Hact & _).
  { subst st0. cbn. pose proof (healthy_counted _ Hh) as Hcnt.
    rewrite Eq in Hcnt. cbn [length] in Hcnt. lia. }
  rewrite Hproc in Hproc'. injection Hproc' as <-.
  subst st0. cbn [self with_queue _queue unfinished_tasks _active_tasks] in Hun, Hact.
  rewrite <- Hit in Hc.
  destruct (IH st1 Hh1 Hc)
    as (st' & status & gone & Hw & Hh' & Hgone & Hun' & Hact' & Hmx' & Hp' & He').
  rewrite Htake, Hproc, Hw. exists st', status, (item :: gone).
  split_and!; [done | done | | | | | |].
  - cbn [app]. by rewrite <- Hgone, Hit.
  - cbn [length]. lia.
  - lia.
  - lia.
  - destruct (coroutine_factory item tt); lia.
  - destruct (coroutine_factory item tt); lia.
Qed.

(** X25.  Backpressure over time.  On a queue made for [max_queue_size >=
    1] items and started, whatever callers submit (work that returns or
    raises an [Exception]) and however the worker's turns fall between the
    calls: the worker never raises, at most [max_queue_size] items are
    pending, [is_full] holds exactly when that many are, every pending
    item's caller is waiting, and between the events no task is active and
    the queue's count of unfinished tasks is the number of pending items. *)
Theorem queue_stays_bounded max_concurrent max_queue_size evs :
  1 <= max_queue_size ->
  Forall catchable_event evs ->
  let st := run (start (mk_state (init max_concurrent max_queue_size) ∅)) evs in
  qsize (_queue (self st)) <= max_queue_size
  /\ (is_full st = true <-> qsize (_queue (self st)) = max_queue_size)
  /\ Forall (fun it => await_future (futures st) (future it) = None)
            (items (_queue (self st)))
  /\ unfinished_tasks (_queue (self st)) = qsize (_queue (self st))
  /\ _active_tasks (self st) = 0
  /\ _running (self st) = true
  /\ (forall turns, exists st' status, _worker turns st = Returned st' status).
Proof.
  intros Hpos Hevs.
  set (inv := fun st : state Any =>
         healthy st
         /\ Forall (fun it => catchable (coroutine_factory it tt) = true)
                   (items (_queue (self st)))
         /\ unfinished_tasks (_queue (self st)) = qsize (_queue (self st))
         /\ _active_tasks (self st) = 0
         /\ maxsize (_queue (self st)) = max_queue_size
         /\ qsize (_queue (self st)) <= max_queue_size).
  assert (Hrun : forall st, inv st -> inv (run st evs)).
  { induction Hevs as [|ev evs Hev _ IH]; intros st Hinv; [done|].
    cbn [run fold_left]. apply IH. clear IH.
    destruct Hinv as (Hh & Hc & Hun & Hact & Hmx & Hsz).
    destruct ev as [task_id factory|turns]; cbn [step catchable_event] in *.
    - destruct (full (_queue (self st))) eqn:Hfull.
      + rewrite (submit_rejected _ _ _ Hfull). cbn [after].
        split_and!; try done. destruct Hh as [H1 H2 H3 H4].
        split; cbn [self futures]; try done.
        rewrite Forall_forall in H4 |- *. intros it Hin.
        rewrite lookup_insert_ne; [by apply H4|]. intros Heq.
        apply (fresh_future (futures st)). rewrite Heq.
        apply elem_of_dom. rewrite (H4 it Hin). eauto.
      + pose proof (submit_accepted st task_id factory Hfull) as Hs.
        cbn zeta in Hs.
        destruct (submit_healthy st task_id factory _ _ Hh Hs)
          as (Hh1 & _ & _ & Hit1).
        rewrite Hs. cbn [after]. set (st1 := mk_state _ _) in *.
        assert (Hlt : qsize (_queue (self st)) < max_queue_size).
        { unfold full in Hfull. rewrite Hmx in Hfull.
          destruct (Z.leb_spec max_queue_size 0); [lia|].
          rewrite Z.geb_leb in Hfull. by apply Z.leb_gt in Hfull. }
        assert (Hq1 : qsize (_queue (self st1)) = qsize (_queue (self st)) + 1).
        { unfold qsize. rewrite Hit1, length_app. cbn [length]. lia. }
        split_and!; [done | | | done | done | lia].
        * rewrite Hit1. apply Forall_app. split; [done|]. by constructor.
        * rewrite Hq1. subst st1. cbn. lia.
    - destruct (worker_keeps turns st Hh Hc)
        as (st' & status & gone & Hw & Hh' & Hgone & Hun' & Hact' & Hmx' & _).
      rewrite Hw. cbn [after].
      assert (Hq : qsize (_queue (self st))
                   = Z.of_nat (length gone) + qsize (_queue (self st'))).
      { unfold qsize. rewrite Hgone, length_app. lia. }
      split_and!; [done | | lia | lia | lia | lia].
      rewrite Hgone in Hc. by apply Forall_app in Hc as [_ ?]. }
  intros st. subst st.
  set (st0 := start (mk_state (init max_concurrent max_queue_size) ∅)).
  assert (Hinv0 : inv st0).
  { subst inv st0. cbn. split_and!;
      [| apply Forall_nil_2 | done | done | done | unfold qsize; cbn; lia].
    split; cbn; [done | lia | constructor | constructor]. }
  destruct (Hrun st0 Hinv0) as (Hh & Hc & Hun & Hact & Hmx & Hsz).
  set (st := run st0 evs) in *.
  split_and!; [done | | | done | done | by destruct Hh |].
  - unfold is_full, full. rewrite Hmx.
    destruct (Z.leb_spec max_queue_size 0); [lia|].
    rewrite Z.geb_leb, Z.leb_le. lia.
  - pose proof (healthy_pending _ Hh) as Hpend.
    rewrite Forall_forall in Hpend. rewrite Forall_forall. intros it Hin.
    unfold await_future. by rewrite (future_state_lookup _ _ _ (Hpend it Hin)).
  - intros turns. destruct (worker_keeps turns st Hh Hc) as (st' & status & _ & Hw & _).
    eauto.
Qed.


End Facts.

Local Open Scope string_scope.
Local Open Scope list_scope.

Lemma submitted_work_comes_back_witness :
  let st := mk_state (mk (mk_queue [] 50 0) 2 50 0 0 0 true) (∅ : gmap nat (fstate nat)) in
  let works := [("a", fun _ : unit => Returns 1%nat);
                ("b", fun _ : unit => Raises (WorkError "boom"));
                ("c", fun _ : unit => Returns 3%nat)] in
  exists st1 handles st2,
    submit_all st works = (st1, map inl handles)
    /\ NoDup handles
    /\ _worker 4 st1 = Returned st2 Parked
    /\ items (_queue (self st2)) = []
    /\ Forall2 (fun w f => await_future (futures st1) f = None
                           /\ await_future (futures st2) f = Some (w.2 tt))
               works handles
    /\ _total_processed (self st2) - _total_processed (self st)
       = returned_count (map (fun it => coroutine_factory it tt)
                             (items (_queue (self st)))
                         ++ map (fun w => w.2 tt) works)
    /\ _total_errors (self st2) - _total_errors (self st)
       = raised_count (map (fun it => coroutine_factory it tt)
                           (items (_queue (self st)))
                       ++ map (fun w => w.2 tt) works).
Proof.
  apply (submitted_work_comes_back
           (mk_state (mk (mk_queue [] 50 0) 2 50 0 0 0 true)
                     (∅ : gmap nat (fstate nat)))
           [("a", fun _ : unit => Returns 1%nat);
            ("b", fun _ : unit => Raises (WorkError "boom"));
            ("c", fun _ : unit => Returns 3%nat)] 4).
  - split.
    + reflexivity.
    + simpl. lia.
    + constructor.
    + constructor.
  - constructor.
  - repeat constructor.
  - right. unfold qsize. simpl. lia.
  - simpl. lia.
Defined.

Lemma cancelled_work_leaves_callers_waiting_witness :
  let item := mk_item "t0" (fun _ => @Raises nat CancelledError) 0 in
  let rest := [mk_item "t1" (fun _ => Returns 1%nat) 1] in
  let st := mk_state (mk (mk_queue (item :: rest) 2 2) 1 2 0 0 0 true)
                     {[0%nat := Pending; 1%nat := Pending]} in
  exists st',
    _worker 3 st = Raised st' CancelledError
    /\ futures st' = futures st
    /\ Forall (fun it => await_future (futures st') (future it) = None)
              (item :: rest)
    /\ items (_queue (self st')) = rest
    /\ _active_tasks (self st') = _active_tasks (self st)
    /\ unfinished_tasks (_queue (self st'))
       = unfinished_tasks (_queue (self st)) - 1
    /\ _total_processed (self st') = _total_processed (self st)
    /\ _total_errors (self st') = _total_errors (self st).
Proof.
  apply (cancelled_work_leaves_callers_waiting
           (mk_state
              (mk (mk_queue [mk_item "t0" (fun _ => @Raises nat CancelledError) 0;
                             mk_item "t1" (fun _ => Returns 1%nat) 1] 2 2)
                  1 2 0 0 0 true)
              {[0%nat := Pending; 1%nat := Pending]})
           _ _ CancelledError 2).
  - split.
    + reflexivity.
    + simpl. lia.
    + apply (bool_decide_unpack _). vm_compute. reflexivity.
    + repeat constructor.
  - reflexivity.
  - reflexivity.
  - reflexivity.
Defined.

Lemma submit_without_worker_waits_witness :
  let st := stop (start (mk_state (init 2 50) (∅ : gmap nat (fstate nat)))) in
  let factory := fun _ : unit => Returns 7%nat in
  exists st1 f st2,
    submit st "t0" factory = Returned st1 f
    /\ await_future (futures st1) f = None
    /\ _worker 6 st1 = Returned st1 Stopped
    /\ _worker 7 (start st1) = Returned st2 Parked
    /\ await_future (futures st2) f = Some (factory tt).
Proof.
  apply (submit_without_worker_waits
           (stop (start (mk_state (init 2 50) (∅ : gmap nat (fstate nat)))))
           "t0" (fun _ : unit => Returns 7%nat) 5).
  - reflexivity.
  - reflexivity.
  - reflexivity.
  - reflexivity.
Defined.

Lemma queue_stays_bounded_witness :
  let evs := [Submits "a" (fun _ => Returns 1%nat);
              Submits "b" (fun _ => Returns 2%nat);
              Works 1;
              Submits "c" (fun _ => Raises (WorkError "boom"));
              Submits "d" (fun _ => Returns 4%nat);
              Works 3] in
  let st := run (start (mk_state (init 2 1) ∅)) evs in
  qsize (_queue (self st)) <= 1
  /\ (is_full st = true <-> qsize (_queue (self st)) = 1)
  /\ Forall (fun it => await_future (futures st) (future it) = None)
            (items (_queue (self st)))
  /\ unfinished_tasks (_queue (self st)) = qsize (_queue (self st))
  /\ _active_tasks (self st) = 0
  /\ _running (self st) = true
  /\ (forall turns, exists st' status, _worker turns st = Returned st' status).
Proof.
  apply (queue_stays_bounded (Any:=nat) 2 1).
  - lia.
  - repeat constructor.
Defined.

(** A queue of one place over time: the second caller is turned away, the
    fourth is not, and the counters say what happened. *)
Example one_place_queue :
  let evs := [Submits "a" (fun _ => Returns 1%nat);
              Submits "b" (fun _ => Returns 2%nat);
              Works 1;
              Submits "c" (fun _ => Raises (WorkError "boom"));
              Works 3] in
  let st := run (start (mk_state (init 2 1) ∅)) evs in
  _total_processed (self st) = 1
  /\ _total_errors (self st) = 1
  /\ futures st !! 0%nat = Some (Finished_result 1%nat)
  /\ futures st !! 1%nat = Some Pending
  /\ futures st !! 2%nat = Some (Finished_exception (WorkError "boom")).
Proof. by split_and!. Qed.

End InferenceQueueMoreFacts.
